(** * Direct_Root_Leaf_Script.py: root-to-leaf table construction

    A shallow embedding of the core of [Direct_Root_Leaf_Script.py]: the
    adjacency builder, the root and leaf detection, the depth-first path
    enumeration with its shared purposes accumulator, the assembly of the
    output table, and the batch driver over a file system given by its
    answers.

    Conventions.
    - A Python [str] is a [string]; read as UTF-8 bytes, the bytewise
      lexicographic order of [String.compare] is Python's code point order.
    - A Python [set] of strings is a [gset string]; the order in which the
      interpreter iterates over it is not fixed by the language and is a
      parameter ([SetIter]).
    - The adjacency [defaultdict] is only ever read by key, so it is a
      [gmap]; the dictionaries whose key order is observable (an edge's
      [purposes], the accumulator, its snapshots) are insertion-ordered
      association lists.
    - The accumulator of the path enumeration is one mutable object shared
      by all recursive calls, and its values are mutable lists shared with
      every snapshot taken of it: both live in an explicit store.
    - Exceptions are values of [exn] threaded through the [result] monad.
      The interpreter's bound on the recursion depth is not modelled.
    - The fields of an edge record hold what the document shape gives them
      (strings, a mapping from strings to string sequences, a string
      sequence) when they are present; a record may lack any field, and an
      element of [links] may fail to be a mapping at all. *)

From stdpp Require Import gmap strings list fin_maps sorting.
From Stdlib Require String Ascii.

(** ** Exceptions *)

Inductive exn : Type :=
  | YAMLError
  | AttributeError
  | KeyError
  | TypeError.

Inductive result (A : Type) : Type :=
  | Ok (a : A)
  | Raise (e : exn).

Arguments Ok {A} a.
Arguments Raise {A} e.

Global Instance result_ret : MRet result := λ A a, Ok a.
Global Instance result_bind : MBind result := λ A B f m,
  match m with
  | Ok a => f a
  | Raise e => Raise e
  end.

(** [for x in xs: s = body x s], stopping at the first exception. *)
Fixpoint for_each {A S : Type} (body : A → S → result S) (xs : list A) (s : S)
  : result S :=
  match xs with
  | [] => Ok s
  | x :: xs => s' ← body x s; for_each body xs s'
  end.

(** ** Data model *)

(** An insertion-ordered dictionary with string keys. *)
Definition pydict (V : Type) : Type := list (string * V).

Definition purposes_dict : Type := pydict (list string).

(** An element of [links] that is a mapping: each field is present or not. *)
Record edge_record : Type := EdgeRecord {
  source : option string;
  target : option string;
  purposes : option purposes_dict;
  text : option (list string)
}.

(** An element of [links]. [NotMapping] is any value that is not a [dict]
    (a scalar, a sequence, [None]). *)
Inductive link : Type :=
  | NotMapping
  | Mapping (m : edge_record).

(** The value of [yaml.safe_load(yaml_content)]. *)
Inductive links_value : Type :=
  | LinksNotList
  | LinksList (links : list link).

Inductive document : Type :=
  | ParseFailure                       (* safe_load raises yaml.YAMLError *)
  | NotDict                            (* isinstance(data, dict) is false *)
  | Dict (links : option links_value). (* a dict, with or without 'links' *)

(** [link.get(field, default)]: only a [dict] has [get]. *)
Definition link_get {A : Type} (l : link) (field : edge_record → option A)
    (dflt : A) : result A :=
  match l with
  | NotMapping => Raise AttributeError
  | Mapping m => Ok (default dflt (field m))
  end.

(** [link[field]]. *)
Definition link_getitem {A : Type} (l : link) (field : edge_record → option A)
  : result A :=
  match l with
  | NotMapping => Raise TypeError
  | Mapping m =>
      match field m with
      | Some v => Ok v
      | None => Raise KeyError
      end
  end.

(** Truth value of a string: non-empty. *)
Definition truthy (s : string) : bool :=
  match s with
  | EmptyString => false
  | String _ _ => true
  end.

(** ** extract_purposes *)

Definition extract_purposes (purposes : purposes_dict) : string :=
  match purposes with
  | [] => ""
  | _ => String.concat ", " purposes.*1
  end.

(** ** build_adjacency_list *)

Abbreviation adjacency := (gmap string (list (string * purposes_dict))).

Definition adj_get (adj_list : adjacency) (node : string)
  : list (string * purposes_dict) :=
  default [] (adj_list !! node).

Definition add_link (l : link) (adj_list : adjacency) : result adjacency :=
  src ← link_get l source "";
  tgt ← link_get l target "";
  prp ← link_get l purposes [];
  if truthy src && truthy tgt
  then Ok (<[src := adj_get adj_list src ++ [(tgt, prp)]]> adj_list)
  else Ok adj_list.

Definition build_adjacency_list (links : list link) : result adjacency :=
  for_each add_link links ∅.

(** ** find_leaf_nodes, find_root_nodes *)

(** [set(link.get(field, '') for link in links)] *)
Fixpoint field_set (field : edge_record → option string) (links : list link)
  : result (gset string) :=
  match links with
  | [] => Ok ∅
  | l :: links =>
      v ← link_get l field "";
      vs ← field_set field links;
      Ok ({[v]} ∪ vs)
  end.

Definition find_leaf_nodes (links : list link) : result (gset string) :=
  sources ← field_set source links;
  targets ← field_set target links;
  Ok (targets ∖ sources).

Definition find_root_nodes (links : list link) : result (gset string) :=
  sources ← field_set source links;
  targets ← field_set target links;
  Ok (sources ∖ targets).

(** ** get_all_paths_with_purposes *)

(** The store of one top-level call. [heap] holds the list objects created
    by the [defaultdict(list)]; [purposes_accumulated] is that dictionary,
    from category to the address of its list; [all_paths] is the result
    list, each entry a path with the shallow copy [dict(purposes_accumulated)]
    taken when the path was completed (addresses, not contents). *)
Record store : Type := Store {
  heap : list (list string);
  purposes_accumulated : pydict nat;
  all_paths : list (list string * pydict nat)
}.

Definition empty_store : store :=
  {| heap := []; purposes_accumulated := []; all_paths := [] |}.

Fixpoint dict_lookup {V : Type} (k : string) (d : pydict V) : option V :=
  match d with
  | [] => None
  | (k', v) :: d => if decide (k = k') then Some v else dict_lookup k d
  end.

(** [purposes_accumulated[category].extend(items)]: a missing category is
    first bound to a fresh empty list, at the end of the key order. *)
Definition extend_category (st : store) (entry : string * list string) : store :=
  let '(category, items) := entry in
  match dict_lookup category (purposes_accumulated st) with
  | Some a =>
      {| heap := alter (λ old, old ++ items) a (heap st);
         purposes_accumulated := purposes_accumulated st;
         all_paths := all_paths st |}
  | None =>
      {| heap := heap st ++ [items];
         purposes_accumulated :=
           purposes_accumulated st ++ [(category, length (heap st))];
         all_paths := all_paths st |}
  end.

(** [for category in purposes.keys(): ...extend(purposes[category])]: a
    dictionary holds each key once, so this runs through its items. *)
Definition accumulate (prp : purposes_dict) (st : store) : store :=
  foldl extend_category st prp.

(** [all_paths.append((path, dict(purposes_accumulated)))] *)
Definition record_path (path : list string) (st : store) : store :=
  {| heap := heap st;
     purposes_accumulated := purposes_accumulated st;
     all_paths := all_paths st ++ [(path, purposes_accumulated st)] |}.

(** The loop over the outgoing edges of the current node; [rec] is the
    recursive call on a next node with the current [path]. *)
Fixpoint visit (rec : string → store → option store) (path : list string)
    (edges : list (string * purposes_dict)) (st : store) : option store :=
  match edges with
  | [] => Some st
  | (next_node, prp) :: edges =>
      if decide (next_node ∈ path)
      then visit rec path edges st
      else
        match rec next_node (accumulate prp st) with
        | Some st' => visit rec path edges st'
        | None => None
        end
  end.

(** The recursive body, with the three optional arguments given. [None] is
    fuel exhaustion, which [dfs_fuel_enough] rules out. *)
Fixpoint dfs (fuel : nat) (adj_list : adjacency) (start end_ : string)
    (path : list string) (st : store) : option store :=
  match fuel with
  | O => None
  | S fuel =>
      let path := path ++ [start] in
      if decide (start = end_)
      then Some (record_path path st)
      else visit (λ next_node st, dfs fuel adj_list next_node end_ path st)
                 path (adj_get adj_list start) st
  end.

(** Every node that is the target of some edge. *)
Definition targets_of (adj_list : adjacency) : gset string :=
  ⋃ ((λ kv : string * list (string * purposes_dict), list_to_set kv.2.*1)
       <$> map_to_list adj_list).

(** Nodes a recursive call may still move to. *)
Definition admissible (adj_list : adjacency) (path : list string) : gset string :=
  targets_of adj_list ∖ list_to_set path.

(** Reading a snapshot after the call: each address is looked up in the
    final heap. *)
Definition resolve (h : list (list string)) (snapshot : pydict nat)
  : purposes_dict :=
  (λ kv : string * nat, (kv.1, default [] (h !! kv.2))) <$> snapshot.

Definition results (st : store) : list (list string * purposes_dict) :=
  (λ e : list string * pydict nat, (e.1, resolve (heap st) e.2)) <$> all_paths st.

(** What a call returns: [None] or a list. *)
Inductive pyvalue (A : Type) : Type :=
  | PyNone
  | PyList (xs : list A).

Arguments PyNone {A}.
Arguments PyList {A} xs.

(** The call [get_all_paths_with_purposes(adj_list, start, end)]. The branch
    [start == end] of the outermost call ends in a bare [return]. *)
Definition get_all_paths_with_purposes (adj_list : adjacency) (start end_ : string)
  : pyvalue (list string * purposes_dict) :=
  match dfs (S (size (targets_of adj_list))) adj_list start end_ [] empty_store with
  | Some st => if decide (start = end_) then PyNone else PyList (results st)
  | None => PyNone
  end.

(** ** The output table *)

Record row : Type := Row {
  data_type : string;
  collector : string;
  purpose : string;
  text_content : string
}.

Global Instance row_eq_dec : EqDecision row.
Proof. solve_decision. Defined.

(** A [DataFrame] with the four columns, as the list of its rows. *)
Definition table : Type := list row.

(** Ascending order on the pair [(data_type, collector)]. *)
Definition key_leb (r1 r2 : row) : bool :=
  match String.compare (data_type r1) (data_type r2) with
  | Lt => true
  | Eq => String.leb (collector r1) (collector r2)
  | Gt => false
  end.

Definition key_le (r1 r2 : row) : Prop := key_leb r1 r2 = true.

(** [df.sort_values(['data_type', 'collector'])]: with several keys pandas
    sorts through a lexicographic indexer, which is stable. A row is placed
    in front of the first later row whose key is not smaller. *)
Fixpoint insert_row (r : row) (sorted : table) : table :=
  match sorted with
  | [] => [r]
  | r' :: rest =>
      if key_leb r r' then r :: r' :: rest else r' :: insert_row r rest
  end.

Fixpoint sort_values (df : table) : table :=
  match df with
  | [] => []
  | r :: df => insert_row r (sort_values df)
  end.

(** [df.drop_duplicates()]: of rows equal in every column the first stays. *)
Fixpoint drop_duplicates_from (seen : list row) (df : table) : table :=
  match df with
  | [] => []
  | r :: df =>
      if decide (r ∈ seen)
      then drop_duplicates_from seen df
      else r :: drop_duplicates_from (r :: seen) df
  end.

Definition drop_duplicates (df : table) : table := drop_duplicates_from [] df.

(** [if not df.empty: sort, then drop duplicates] *)
Definition finish (rows : list row) : table :=
  match rows with
  | [] => []
  | _ => drop_duplicates (sort_values rows)
  end.

(** ** process_yaml_to_organized_data *)

(** The order in which a [for] loop runs through a set: some enumeration of
    its elements, each once. *)
Class SetIter : Type := {
  set_iter : gset string → list string;
  set_iter_perm : ∀ X : gset string, set_iter X ≡ₚ elements X
}.

(** The line separator of ["\n".join(...)]. *)
Definition newline : string := String (Ascii.ascii_of_nat 10) "".

(** The body of [for link in links:], for one path of the pair. The test
    [link['source'] == root and link['target'] == leaf] reads the target
    only when the source matched. *)
Definition scan_link (root leaf : string) (inherited_purposes : purposes_dict)
    (l : link) (rows : list row) : result (list row) :=
  src ← link_getitem l source;
  if decide (src = root) then
    tgt ← link_getitem l target;
    if decide (tgt = leaf) then
      lines ← link_get l text [];
      Ok (rows ++ [ {| data_type := leaf;
                       collector := root;
                       purpose := extract_purposes inherited_purposes;
                       text_content := String.concat newline lines |} ])
    else Ok rows
  else Ok rows.

(** [for path, inherited_purposes in paths_with_purposes:] *)
Definition scan_path (links : list link) (root leaf : string)
    (found : list string * purposes_dict) (rows : list row) : result (list row) :=
  for_each (scan_link root leaf found.2) links rows.

(** The body of [for leaf in leaf_nodes:]. Iterating over [None] is a
    [TypeError]. *)
Definition scan_pair (links : list link) (adj_list : adjacency) (root leaf : string)
    (rows : list row) : result (list row) :=
  match get_all_paths_with_purposes adj_list root leaf with
  | PyNone => Raise TypeError
  | PyList paths_with_purposes =>
      for_each (scan_path links root leaf) paths_with_purposes rows
  end.

Section Process.
Context `{SetIter}.

(** The rows collected by the two nested loops over roots and leaves. *)
Definition collect_rows (links : list link) : result (list row) :=
  adj_list ← build_adjacency_list links;
  leaf_nodes ← find_leaf_nodes links;
  root_nodes ← find_root_nodes links;
  for_each
    (λ root, for_each (scan_pair links adj_list root) (set_iter leaf_nodes))
    (set_iter root_nodes) [].

(** The body of the [try] block. *)
Definition process_body (data : document) : result table :=
  match data with
  | ParseFailure => Raise YAMLError
  | NotDict => Ok []
  | Dict None => Ok []
  | Dict (Some LinksNotList) => Ok []
  | Dict (Some (LinksList links)) =>
      rows ← collect_rows links;
      Ok (finish rows)
  end.

(** The public entry point, on the outcome of [yaml.safe_load]. *)
Definition process_yaml_to_organized_data (data : document) : table :=
  match process_body data with
  | Ok df => df
  | Raise YAMLError => []
  | Raise _ => []
  end.
End Process.

(** The enumeration [elements] is one iteration order. *)
Global Instance elements_iter : SetIter :=
  {| set_iter := elements; set_iter_perm := λ X, reflexivity (elements X) |}.

(** ** process_all_yaml_files *)

(** The batch driver talks to the file system and to the console. The file
    system is given by its answers, the console and the files written by the
    list of what happened, in order. An operating system call either
    answers or raises. *)
Inductive os_answer (A : Type) : Type :=
  | Answer (a : A)
  | OSError.

Arguments Answer {A} a.
Arguments OSError {A}.

(** Opening and reading a file: it raises, or gives a text, here the
    document [yaml.safe_load] makes of that text. *)
Inductive file_content : Type :=
  | Unreadable
  | Content (data : document).

(** An entry of the input folder: [os.path.isdir] is false for it, or it is
    a folder, with what [os.listdir] answers for it. *)
Inductive dir_entry : Type :=
  | NotFolder
  | AppFolder (files : os_answer (list (string * file_content))).

Record file_system : Type := FileSystem {
  output_exists : bool;                    (* os.path.exists(output_folder) *)
  makedirs : os_answer unit;               (* os.makedirs(output_folder) *)
  input_listing : os_answer (list (string * dir_entry));
                                           (* os.listdir(input_folder) *)
  to_csv : string → table → os_answer unit (* df.to_csv(output_path, index=False),
                                              by the name of the output file *)
}.

Inductive event : Type :=
  | MadeDirs
  | PrintedFolder (app_folder : string)
  | PrintedFiles (files_in_folder : list string)
  | WroteCsv (name : string) (df : table)
  | PrintedProcessed (filename name : string)
  | PrintedNoValidData (filename : string)
  | PrintedError (filename : string).

(** [f"{app_folder}.csv"] *)
Definition csv_name (app_folder : string) : string :=
  String.append app_folder ".csv".

Section Driver.
Context `{SetIter}.
Variable fs : file_system.

(** The body of [for filename in files_in_folder:]. Whatever is raised
    inside the [try] is printed and dropped. *)
Definition process_file (app_folder : string) (file : string * file_content)
  : list event :=
  let '(filename, content) := file in
  if decide (filename = "graph-original.yml") then
    match content with
    | Unreadable => [PrintedError filename]
    | Content data =>
        match process_yaml_to_organized_data data with
        | [] => [PrintedNoValidData filename]
        | df =>
            match to_csv fs (csv_name app_folder) df with
            | Answer _ =>
                [WroteCsv (csv_name app_folder) df;
                 PrintedProcessed filename (csv_name app_folder)]
            | OSError => [PrintedError filename]
            end
        end
    end
  else [].

(** The body of [for app_folder in os.listdir(input_folder):], with what has
    happened and whether an exception leaves the loop. *)
Definition process_entry (entry : string * dir_entry) : list event * os_answer unit :=
  let '(app_folder, kind) := entry in
  match kind with
  | NotFolder => ([], Answer ())
  | AppFolder OSError => ([PrintedFolder app_folder], OSError)
  | AppFolder (Answer files) =>
      (PrintedFolder app_folder :: PrintedFiles files.*1
         :: (files ≫= process_file app_folder),
       Answer ())
  end.

Fixpoint process_entries (entries : list (string * dir_entry))
  : list event * os_answer unit :=
  match entries with
  | [] => ([], Answer ())
  | entry :: entries =>
      match process_entry entry with
      | (events, Answer _) =>
          let '(events', outcome) := process_entries entries in
          (events ++ events', outcome)
      | (events, OSError) => (events, OSError)
      end
  end.

Definition process_all_yaml_files : list event * os_answer unit :=
  let '(made, outcome) :=
    if output_exists fs then ([], Answer ())
    else match makedirs fs with
         | Answer _ => ([MadeDirs], Answer ())
         | OSError => ([], OSError)
         end in
  match outcome with
  | OSError => (made, OSError)
  | Answer _ =>
      match input_listing fs with
      | OSError => (made, OSError)
      | Answer entries =>
          let '(events, outcome) := process_entries entries in
          (made ++ events, outcome)
      end
  end.
End Driver.

(** * Vocabulary of the properties *)

(** The adjacency mapping with every edge whose target is its own source
    removed. *)
Definition remove_self_loops (adj_list : adjacency) : adjacency :=
  map_imap (λ node edges,
    Some (filter (λ e : string * purposes_dict, e.1 ≠ node) edges)) adj_list.

(** Whether a computation ends in an exception. *)
Definition is_raise {A : Type} (r : result A) : Prop :=
  match r with
  | Raise _ => True
  | Ok _ => False
  end.

(** The values of one field over a sequence of mappings, the empty string
    standing for a missing field. *)
Definition field_values (field : edge_record → option string)
    (ms : list edge_record) : gset string :=
  list_to_set ((λ m, default "" (field m)) <$> ms).

(** Some record has the field missing or empty. *)
Definition blank (field : edge_record → option string) (ms : list edge_record) : Prop :=
  ∃ m, m ∈ ms ∧ (field m = None ∨ field m = Some "").

(** The values of one field that are not the empty string. *)
Definition nonempty_field_values (field : edge_record → option string)
    (ms : list edge_record) : gset string :=
  list_to_set (filter (λ s : string, s ≠ "") ((λ m, default "" (field m)) <$> ms)).

(** A record is a direct edge of the pair. *)
Definition is_direct (root leaf : string) (m : edge_record) : Prop :=
  source m = Some root ∧ target m = Some leaf.

Global Instance is_direct_dec root leaf m : Decision (is_direct root leaf m).
Proof. unfold is_direct. apply _. Defined.

(** The direct edges of a pair, in the order of the edge list. *)
Fixpoint direct_edges (links : list link) (root leaf : string) : list edge_record :=
  match links with
  | [] => []
  | NotMapping :: links => direct_edges links root leaf
  | Mapping m :: links =>
      if decide (is_direct root leaf m)
      then m :: direct_edges links root leaf
      else direct_edges links root leaf
  end.

(** The row of one path and one direct edge: the text of the edge, the
    category names accumulated for the path. *)
Definition make_row (root leaf : string) (inherited_purposes : purposes_dict)
    (m : edge_record) : row :=
  {| data_type := leaf;
     collector := root;
     purpose := extract_purposes inherited_purposes;
     text_content := String.concat newline (default [] (text m)) |}.

(** One row for each path and each direct edge of the pair. *)
Definition pair_rows (links : list link) (root leaf : string)
    (paths : list (list string * purposes_dict)) : list row :=
  found ← paths; make_row root leaf found.2 <$> direct_edges links root leaf.

(** The paths the enumerator returned, none if it returned [None]. *)
Definition paths_of (adj_list : adjacency) (root leaf : string)
  : list (list string * purposes_dict) :=
  match get_all_paths_with_purposes adj_list root leaf with
  | PyList paths => paths
  | PyNone => []
  end.

(** Some pair of a root and a leaf of the edge list yields a path. *)
Definition yields_path (links : list link) (root leaf : string) : Prop :=
  ∃ adj_list roots leaves found rest,
    build_adjacency_list links = Ok adj_list
    ∧ find_root_nodes links = Ok roots
    ∧ find_leaf_nodes links = Ok leaves
    ∧ root ∈ roots ∧ leaf ∈ leaves
    ∧ get_all_paths_with_purposes adj_list root leaf = PyList (found :: rest).

(** The purposes of the edges of one path, accumulated edge by edge into a
    dictionary of its own: the categories in the order they are first met,
    each with the concatenation of its entries. *)
Fixpoint dict_extend (d : purposes_dict) (category : string) (items : list string)
  : purposes_dict :=
  match d with
  | [] => [(category, items)]
  | (k, v) :: d =>
      if decide (k = category) then (k, v ++ items) :: d
      else (k, v) :: dict_extend d category items
  end.

Definition path_purposes (edges : list purposes_dict) : purposes_dict :=
  foldl (foldl (λ d e, dict_extend d e.1 e.2)) [] edges.

(** The outgoing edges the records give a node, in the order of the records:
    those of the records whose source is the node, when the source and the
    target are both non-empty. *)
Definition out_edges (ms : list edge_record) (node : string)
  : list (string * purposes_dict) :=
  m ← ms;
  if decide (default "" (source m) = node) then
    if truthy (default "" (source m)) && truthy (default "" (target m))
    then [(default "" (target m), default [] (purposes m))]
    else []
  else [].

(** A walk in the adjacency list: from [node] an edge leads to the first of
    the further nodes, from there to the second, and so on; each of these
    edges carries only categories among [keys]. *)
Fixpoint covered_walk (adj_list : adjacency) (keys : list string) (node : string)
    (further : list string) : Prop :=
  match further with
  | [] => True
  | next_node :: further =>
      (∃ prp, (next_node, prp) ∈ adj_get adj_list node ∧ prp.*1 ⊆ keys)
      ∧ covered_walk adj_list keys next_node further
  end.

(** A walk, whatever the categories of its edges. *)
Fixpoint walk (adj_list : adjacency) (node : string) (further : list string) : Prop :=
  match further with
  | [] => True
  | next_node :: further =>
      (∃ prp, (next_node, prp) ∈ adj_get adj_list node)
      ∧ walk adj_list next_node further
  end.

(** What is asked of an entry recorded by a call at [start] with the path
    [path], between the accumulator [acc0] at its beginning and [acc1] at
    its end. *)
Definition recorded (adj_list : adjacency) (end_ : string) (path : list string) (start : string) (acc0 acc1 : pydict nat)
    (e : list string * pydict nat) : Prop :=
  ∃ further,
    e.1 = path ++ start :: further
    ∧ covered_walk adj_list e.2.*1 start further
    ∧ last (start :: further) = Some end_
    ∧ NoDup e.1
    ∧ acc0 `prefix_of` e.2
    ∧ e.2 `prefix_of` acc1.

(** What is asked of the store [st'] a call leaves, given the store [st] it
    was entered with. *)
Definition extends (adj_list : adjacency) (end_ : string) (path : list string) (start : string) (st st' : store) : Prop :=
  purposes_accumulated st `prefix_of` purposes_accumulated st'
  ∧ ∃ new,
      all_paths st' = all_paths st ++ new
      ∧ Forall (recorded adj_list end_ path start (purposes_accumulated st)
                  (purposes_accumulated st')) new
      ∧ StronglySorted (λ e1 e2 : list string * pydict nat, e1.2 `prefix_of` e2.2) new.

(** A row has the given sort key, the pair of a data type and a collector. *)
Definition has_key (k : string * string) (r : row) : Prop :=
  data_type r = k.1 ∧ collector r = k.2.

Global Instance has_key_dec k r : Decision (has_key k r).
Proof. unfold has_key. apply _. Defined.

(** The path from [node] along [further] takes, at each node, the only
    outgoing edge there is; [prps] are the purposes of these edges in order. *)
Fixpoint only_edges (adj_list : adjacency) (node : string) (further : list string)
    (prps : list purposes_dict) : Prop :=
  match further, prps with
  | [], [] => True
  | next_node :: further, prp :: prps =>
      adj_get adj_list node = [(next_node, prp)]
      ∧ only_edges adj_list next_node further prps
  | _, _ => False
  end.

(** The accumulator of a store read as a dictionary of lists. *)
Definition accumulated (st : store) : purposes_dict :=
  resolve (heap st) (purposes_accumulated st).

(** The addresses of the accumulator are allocated and pairwise distinct,
    and so are its keys. *)
Definition store_wf (st : store) : Prop :=
  Forall (λ kv : string * nat, kv.2 < length (heap st)) (purposes_accumulated st)
  ∧ NoDup (purposes_accumulated st).*2
  ∧ NoDup (purposes_accumulated st).*1.

(** The names of the files written, in the order of writing. *)
Definition written (events : list event) : list string :=
  omap (λ e, match e with WroteCsv name _ => Some name | _ => None end) events.

(** What makes the two nested loops raise: an element that is not a mapping;
    or a pair that yields a path together with a record that lacks its
    source, or that has the root of the pair as source and lacks its target. *)
Definition scan_fails (links : list link) : Prop :=
  NotMapping ∈ links
  ∨ (∃ root leaf m,
       yields_path links root leaf ∧ Mapping m ∈ links
       ∧ (source m = None ∨ (source m = Some root ∧ target m = None))).

(** * Properties *)

(** ** The depth-first search: fuel and termination *)

Section Search.
Variable adj_list : adjacency.
Variable end_ : string.

Lemma elem_of_targets_of (node : string) :
  node ∈ targets_of adj_list ↔
  ∃ src edges, adj_list !! src = Some edges ∧ node ∈ edges.*1.
Proof.
  unfold targets_of. rewrite elem_of_union_list. split.
  - intros (X & HX & Hin). apply list_elem_of_fmap in HX as ([src edges] & -> & Hkv).
    apply elem_of_map_to_list in Hkv. exists src, edges. split; [done|].
    by apply elem_of_list_to_set in Hin.
  - intros (src & edges & Hl & Hin).
    exists (list_to_set edges.*1). split.
    + apply list_elem_of_fmap. exists (src, edges). split; [done|].
      by apply elem_of_map_to_list.
    + by apply elem_of_list_to_set.
Qed.

Lemma adj_get_targets (node next_node : string) (prp : purposes_dict) :
  (next_node, prp) ∈ adj_get adj_list node → next_node ∈ targets_of adj_list.
Proof.
  unfold adj_get. intros Hin. apply elem_of_targets_of.
  destruct (adj_list !! node) as [edges|] eqn:Hl; simpl in Hin.
  - exists node, edges. split; [done|].
    apply list_elem_of_fmap. by exists (next_node, prp).
  - by apply not_elem_of_nil in Hin.
Qed.

(** Moving to a node outside the path strictly shrinks the admissible set. *)
Lemma admissible_shrinks (path : list string) (next_node : string) :
  next_node ∈ targets_of adj_list → next_node ∉ path →
  size (admissible adj_list (path ++ [next_node])) < size (admissible adj_list path).
Proof.
  intros Ht Hp. apply subset_size. unfold admissible. split.
  - intros x. rewrite !elem_of_difference, !elem_of_list_to_set, elem_of_app.
    intros [? Hn]. split; [done|]. intros ?. apply Hn. by left.
  - intros Hsub. specialize (Hsub next_node).
    rewrite !elem_of_difference, !elem_of_list_to_set, elem_of_app in Hsub.
    destruct Hsub as [_ Hn]; [done|]. apply Hn. right. by apply list_elem_of_singleton.
Qed.

Lemma visit_is_Some (rec : string → store → option store) (path : list string)
    (edges : list (string * purposes_dict)) :
  (∀ next_node prp st, (next_node, prp) ∈ edges → next_node ∉ path →
     is_Some (rec next_node st)) →
  ∀ st, is_Some (visit rec path edges st).
Proof.
  induction edges as [|[next_node prp] edges IH]; intros Hrec st; simpl.
  - by eexists.
  - assert (∀ st', is_Some (visit rec path edges st')) as Hrest.
    { apply IH. intros n p s Hin. apply (Hrec n p). by right. }
    destruct (decide (next_node ∈ path)) as [|Hn]; [done|].
    destruct (Hrec next_node prp (accumulate prp st)) as [st' ->]; [by left|done|].
    done.
Qed.

Lemma visit_mono (rec1 rec2 : string → store → option store) (path : list string)
    (edges : list (string * purposes_dict)) :
  (∀ n s s', rec1 n s = Some s' → rec2 n s = Some s') →
  ∀ st st', visit rec1 path edges st = Some st' → visit rec2 path edges st = Some st'.
Proof.
  intros Hrec. induction edges as [|[next_node prp] edges IH]; intros st st'; simpl.
  - done.
  - destruct (decide (next_node ∈ path)); [by apply IH|].
    destruct (rec1 next_node (accumulate prp st)) as [s1|] eqn:H1; [|done].
    rewrite (Hrec _ _ _ H1). by apply IH.
Qed.

Lemma visit_ext (rec1 rec2 : string → store → option store) (path : list string)
    (edges : list (string * purposes_dict)) :
  (∀ n s, rec1 n s = rec2 n s) →
  ∀ st, visit rec1 path edges st = visit rec2 path edges st.
Proof.
  intros Hrec. induction edges as [|[next_node prp] edges IH]; intros st; simpl.
  - done.
  - destruct (decide (next_node ∈ path)); [by apply IH|].
    rewrite Hrec. destruct (rec2 next_node (accumulate prp st)); [by apply IH|done].
Qed.

(** With more fuel than admissible nodes the search does not run out. *)
Lemma dfs_fuel_enough (fuel : nat) :
  ∀ start path st,
    size (admissible adj_list (path ++ [start])) < fuel →
    is_Some (dfs fuel adj_list start end_ path st).
Proof.
  induction fuel as [|fuel IH]; intros start path st Hsize; [lia|].
  simpl. destruct (decide (start = end_)); [by eexists|].
  apply visit_is_Some. intros next_node prp st' Hin Hnot.
  apply IH. apply adj_get_targets in Hin.
  pose proof (admissible_shrinks (path ++ [start]) next_node Hin Hnot). lia.
Qed.

(** Fuel that was enough stays enough, with the same final store. *)
Lemma dfs_fuel_S (fuel : nat) :
  ∀ start path st st',
    dfs fuel adj_list start end_ path st = Some st' →
    dfs (S fuel) adj_list start end_ path st = Some st'.
Proof.
  induction fuel as [|fuel IH]; intros start path st st' Hrun; [done|].
  change (dfs (S (S fuel)) adj_list start end_ path st) with
    (if decide (start = end_) then Some (record_path (path ++ [start]) st)
     else visit (λ n s, dfs (S fuel) adj_list n end_ (path ++ [start]) s)
            (path ++ [start]) (adj_get adj_list start) st).
  simpl in Hrun. destruct (decide (start = end_)); [done|].
  revert Hrun. apply visit_mono. intros next_node s s'. apply IH.
Qed.

Lemma dfs_fuel_le (fuel fuel' : nat) start path st st' :
  fuel ≤ fuel' →
  dfs fuel adj_list start end_ path st = Some st' →
  dfs fuel' adj_list start end_ path st = Some st'.
Proof.
  induction 1 as [|fuel' _ IH]; [done|]. intros Hrun. by apply dfs_fuel_S, IH.
Qed.

(** The search from [start] ends, in a store that no amount of further
    fuel changes. *)
Lemma dfs_terminates (start : string) (path : list string) (st : store) :
  ∃ st', ∀ fuel,
    size (admissible adj_list (path ++ [start])) < fuel →
    dfs fuel adj_list start end_ path st = Some st'.
Proof.
  destruct (dfs_fuel_enough (S (size (admissible adj_list (path ++ [start]))))
              start path st) as [st' Hst']; [lia|].
  exists st'. intros fuel Hfuel. eapply dfs_fuel_le; [|exact Hst']. lia.
Qed.

Lemma admissible_size_le (path : list string) :
  size (admissible adj_list path) ≤ size (targets_of adj_list).
Proof.
  apply subseteq_size. unfold admissible. intros x.
  rewrite elem_of_difference. by intros [? _].
Qed.

(** The fuel of the outermost call is enough. *)
Lemma top_level_fuel (start : string) :
  is_Some (dfs (S (size (targets_of adj_list))) adj_list start end_ [] empty_store).
Proof.
  apply dfs_fuel_enough. pose proof (admissible_size_le ([] ++ [start])). lia.
Qed.

(** *** Self-loops *)

Lemma adj_get_remove_self_loops (node : string) :
  adj_get (remove_self_loops adj_list) node =
  filter (λ e : string * purposes_dict, e.1 ≠ node) (adj_get adj_list node).
Proof.
  unfold adj_get, remove_self_loops. rewrite map_lookup_imap.
  by destruct (adj_list !! node).
Qed.

(** An edge back to a node of the path is passed over. *)
Lemma visit_skip (rec : string → store → option store) (path : list string)
    (node : string) (prp : purposes_dict) (edges : list (string * purposes_dict))
    (st : store) :
  node ∈ path →
  visit rec path ((node, prp) :: edges) st = visit rec path edges st.
Proof. intros Hin. simpl. by destruct (decide (node ∈ path)). Qed.

Lemma visit_filter_self (rec : string → store → option store) (path : list string)
    (node : string) (edges : list (string * purposes_dict)) :
  node ∈ path →
  ∀ st, visit rec path (filter (λ e : string * purposes_dict, e.1 ≠ node) edges) st
        = visit rec path edges st.
Proof.
  intros Hin. induction edges as [|[next_node prp] edges IH]; intros st; [done|].
  rewrite filter_cons. destruct (decide ((next_node, prp).1 ≠ node)) as [Hne|Heq].
  - simpl. destruct (decide (next_node ∈ path)); [by apply IH|].
    destruct (rec next_node (accumulate prp st)); [by apply IH|done].
  - apply dec_stable in Heq. simpl in Heq. subst next_node.
    rewrite visit_skip by done. apply IH.
Qed.
End Search.

Lemma dfs_remove_self_loops (adj_list : adjacency) (end_ : string) (fuel : nat) :
  ∀ start path st,
    dfs fuel (remove_self_loops adj_list) start end_ path st
    = dfs fuel adj_list start end_ path st.
Proof.
  induction fuel as [|fuel IH]; intros start path st; [done|].
  simpl. destruct (decide (start = end_)); [done|].
  rewrite adj_get_remove_self_loops, visit_filter_self.
  - apply visit_ext. intros next_node s. apply IH.
  - apply elem_of_app. right. by apply list_elem_of_singleton.
Qed.

Lemma get_all_paths_remove_self_loops (adj_list : adjacency) (start end_ : string) :
  get_all_paths_with_purposes (remove_self_loops adj_list) start end_
  = get_all_paths_with_purposes adj_list start end_.
Proof.
  unfold get_all_paths_with_purposes.
  destruct (top_level_fuel (remove_self_loops adj_list) end_ start) as [st1 H1].
  destruct (top_level_fuel adj_list end_ start) as [st2 H2].
  rewrite H1, H2. rewrite dfs_remove_self_loops in H1.
  set (f1 := S (size (targets_of (remove_self_loops adj_list)))) in *.
  set (f2 := S (size (targets_of adj_list))) in *.
  assert (st1 = st2) as ->; [|done].
  apply (dfs_fuel_le adj_list end_ f1 (f1 `max` f2)) in H1; [|lia].
  apply (dfs_fuel_le adj_list end_ f2 (f1 `max` f2)) in H2; [|lia].
  congruence.
Qed.

(** ** The order of the sort keys *)

Lemma ascii_compare_lt_trans (a b c : Ascii.ascii) :
  Ascii.compare a b = Lt → Ascii.compare b c = Lt → Ascii.compare a c = Lt.
Proof. unfold Ascii.compare. rewrite !N.compare_lt_iff. lia. Qed.

Lemma string_compare_lt_trans (s1 : string) :
  ∀ s2 s3, String.compare s1 s2 = Lt → String.compare s2 s3 = Lt →
           String.compare s1 s3 = Lt.
Proof.
  induction s1 as [|a s1 IH]; intros [|b s2] [|c s3]; simpl; try done.
  destruct (Ascii.compare a b) eqn:Hab; [| |done].
  - apply Ascii.compare_eq_iff in Hab as ->.
    destruct (Ascii.compare b c); [apply IH|done|done].
  - destruct (Ascii.compare b c) eqn:Hbc; [| |done].
    + apply Ascii.compare_eq_iff in Hbc as <-. by rewrite Hab.
    + by rewrite (ascii_compare_lt_trans a b c).
Qed.

Lemma string_leb_trans (s1 s2 s3 : string) :
  String.leb s1 s2 = true → String.leb s2 s3 = true → String.leb s1 s3 = true.
Proof.
  unfold String.leb.
  destruct (String.compare s1 s2) eqn:H12; [| |done]; intros _.
  - apply String.compare_eq_iff in H12 as ->. done.
  - destruct (String.compare s2 s3) eqn:H23; [| |done]; intros _.
    + apply String.compare_eq_iff in H23 as <-. by rewrite H12.
    + by rewrite (string_compare_lt_trans s1 s2 s3).
Qed.

Global Instance key_le_trans : Transitive key_le.
Proof.
  intros r1 r2 r3. unfold key_le, key_leb.
  destruct (String.compare (data_type r1) (data_type r2)) eqn:H12; [| |done].
  - apply String.compare_eq_iff in H12. rewrite H12.
    destruct (String.compare (data_type r2) (data_type r3)); [|done|done].
    apply string_leb_trans.
  - intros _.
    destruct (String.compare (data_type r2) (data_type r3)) eqn:H23; [| |done].
    + apply String.compare_eq_iff in H23. rewrite <- H23, H12. done.
    + by rewrite (string_compare_lt_trans _ _ _ H12 H23).
Qed.

Lemma key_leb_total (r1 r2 : row) : key_leb r1 r2 = false → key_leb r2 r1 = true.
Proof.
  unfold key_leb. rewrite (String.compare_antisym (data_type r2) (data_type r1)).
  destruct (String.compare (data_type r1) (data_type r2)); simpl; [|done|done].
  intros Hle. destruct (String.leb_total (collector r1) (collector r2)); congruence.
Qed.

(** ** Sorting and deduplication *)

Lemma insert_row_perm (r : row) (df : table) : insert_row r df ≡ₚ r :: df.
Proof.
  induction df as [|r' df IH]; simpl; [done|].
  destruct (key_leb r r'); [done|]. rewrite IH. apply Permutation_swap.
Qed.

Lemma sort_values_perm (df : table) : sort_values df ≡ₚ df.
Proof.
  induction df as [|r df IH]; simpl; [done|]. by rewrite insert_row_perm, IH.
Qed.

Lemma insert_row_sorted (r : row) (df : table) :
  StronglySorted key_le df → StronglySorted key_le (insert_row r df).
Proof.
  induction 1 as [|r' df Hs IH Hall]; simpl.
  - by repeat constructor.
  - destruct (key_leb r r') eqn:Hle.
    + constructor; [by constructor|]. constructor; [done|].
      eapply Forall_impl; [exact Hall|]. intros r'' Hr''. by transitivity r'.
    + constructor; [done|]. rewrite insert_row_perm.
      constructor; [|done]. by apply key_leb_total.
Qed.

Lemma sort_values_sorted (df : table) : StronglySorted key_le (sort_values df).
Proof.
  induction df as [|r df IH]; simpl; [constructor|]. by apply insert_row_sorted.
Qed.

Lemma elem_of_drop_duplicates_from (seen : list row) (df : table) (r : row) :
  r ∈ drop_duplicates_from seen df ↔ r ∈ df ∧ r ∉ seen.
Proof.
  revert seen. induction df as [|r' df IH]; intros seen; simpl.
  - split; [by intros ?%not_elem_of_nil|by intros [?%not_elem_of_nil _]].
  - destruct (decide (r' ∈ seen)) as [Hin|Hout].
    + rewrite IH, elem_of_cons. split.
      * intros [? ?]. split; [by right|done].
      * intros [[->|?] ?]; [done|by split].
    + rewrite !elem_of_cons, IH, not_elem_of_cons.
      destruct (decide (r = r')) as [->|Hne]; intuition congruence.
Qed.

Lemma drop_duplicates_from_NoDup (seen : list row) (df : table) :
  NoDup (drop_duplicates_from seen df).
Proof.
  revert seen. induction df as [|r df IH]; intros seen; simpl; [constructor|].
  destruct (decide (r ∈ seen)); [apply IH|].
  constructor; [|apply IH]. rewrite elem_of_drop_duplicates_from, not_elem_of_cons.
  by intros [_ [? _]].
Qed.

Lemma drop_duplicates_from_sorted (seen : list row) (df : table) :
  StronglySorted key_le df → StronglySorted key_le (drop_duplicates_from seen df).
Proof.
  intros Hs. revert seen. induction Hs as [|r df Hs IH Hall]; intros seen; simpl.
  - constructor.
  - destruct (decide (r ∈ seen)); [apply IH|].
    constructor; [apply IH|]. apply Forall_forall. intros r' Hr'.
    apply elem_of_drop_duplicates_from in Hr' as [Hr' _].
    by eapply Forall_forall in Hall.
Qed.

Lemma elem_of_finish (rows : list row) (r : row) : r ∈ finish rows ↔ r ∈ rows.
Proof.
  destruct rows as [|r0 rows]; [done|]. unfold finish, drop_duplicates.
  rewrite elem_of_drop_duplicates_from, sort_values_perm.
  split; [by intros [? _]|]. intros ?. split; [done|]. apply not_elem_of_nil.
Qed.

Lemma finish_sorted (rows : list row) : StronglySorted key_le (finish rows).
Proof.
  destruct rows as [|r0 rows]; [constructor|].
  apply drop_duplicates_from_sorted, sort_values_sorted.
Qed.

Lemma finish_NoDup (rows : list row) : NoDup (finish rows).
Proof.
  destruct rows as [|r0 rows]; [constructor|]. apply drop_duplicates_from_NoDup.
Qed.

(** ** Loops in the exception monad *)

(** A loop raises as soon as one of its iterations would raise whatever the
    state it is entered in. *)
Lemma for_each_raises {A S : Type} (body : A → S → result S) (xs : list A) (x : A) :
  x ∈ xs → (∀ s, is_raise (body x s)) → ∀ s, is_raise (for_each body xs s).
Proof.
  intros Hin Hx. induction xs as [|y xs IH]; intros s.
  - by apply not_elem_of_nil in Hin.
  - simpl. apply elem_of_cons in Hin as [<-|Hin].
    + specialize (Hx s). by destruct (body x s).
    + destruct (body y s) as [s'|e]; simpl; [by apply IH|done].
Qed.

(** A loop whose iterations only append appends the concatenation. *)
Lemma for_each_appends {A B : Type} (body : A → list B → result (list B))
    (f : A → list B) (xs : list A) :
  (∀ x s s', x ∈ xs → body x s = Ok s' → s' = s ++ f x) →
  ∀ s s', for_each body xs s = Ok s' → s' = s ++ (xs ≫= f).
Proof.
  induction xs as [|x xs IH]; intros Hbody s s' Hrun; simpl in *.
  - injection Hrun as <-. by rewrite app_nil_r.
  - destruct (body x s) as [s1|e] eqn:Hx; simpl in Hrun; [|done].
    apply Hbody in Hx as ->; [|by left].
    apply IH in Hrun as ->; [by rewrite app_assoc|].
    intros y t t' Hy. apply Hbody. by right.
Qed.

(** ** Roots and leaves *)

Lemma field_set_mappings (field : edge_record → option string) (ms : list edge_record) :
  field_set field (Mapping <$> ms) = Ok (field_values field ms).
Proof.
  induction ms as [|m ms IH]; [done|].
  change (field_set field (Mapping <$> m :: ms)) with
    (vs ← field_set field (Mapping <$> ms); Ok ({[default "" (field m)]} ∪ vs)).
  by rewrite IH.
Qed.

Lemma elem_of_field_values (field : edge_record → option string)
    (ms : list edge_record) (s : string) :
  s ∈ field_values field ms ↔ ∃ m, m ∈ ms ∧ default "" (field m) = s.
Proof.
  unfold field_values. rewrite elem_of_list_to_set, list_elem_of_fmap.
  split; intros (m & ? & ?); by exists m.
Qed.

Lemma blank_field_values (field : edge_record → option string) (ms : list edge_record) :
  "" ∈ field_values field ms ↔ blank field ms.
Proof.
  rewrite elem_of_field_values. unfold blank.
  split; intros (m & Hin & Hm); exists m; (split; [done|]).
  - destruct (field m) as [s|]; [|by left]. right. simpl in Hm. by subst s.
  - by destruct Hm as [-> | ->].
Qed.

Lemma find_root_nodes_mappings (ms : list edge_record) :
  find_root_nodes (Mapping <$> ms)
  = Ok (field_values source ms ∖ field_values target ms).
Proof. unfold find_root_nodes. by rewrite !field_set_mappings. Qed.

Lemma find_leaf_nodes_mappings (ms : list edge_record) :
  find_leaf_nodes (Mapping <$> ms)
  = Ok (field_values target ms ∖ field_values source ms).
Proof. unfold find_leaf_nodes. by rewrite !field_set_mappings. Qed.

Lemma roots_leaves_distinct (links : list link) (roots leaves : gset string)
    (root leaf : string) :
  find_root_nodes links = Ok roots → find_leaf_nodes links = Ok leaves →
  root ∈ roots → leaf ∈ leaves → root ≠ leaf.
Proof.
  unfold find_root_nodes, find_leaf_nodes.
  destruct (field_set source links) as [sources|]; [|done].
  destruct (field_set target links) as [targets|]; [|done].
  simpl. intros [= <-] [= <-].
  rewrite !elem_of_difference. intros [Hs _] [_ Hns] ->. by apply Hns.
Qed.

(** For distinct endpoints the enumerator returns a list. *)
Lemma get_all_paths_list (adj_list : adjacency) (start end_ : string) :
  start ≠ end_ →
  ∃ paths, get_all_paths_with_purposes adj_list start end_ = PyList paths.
Proof.
  intros Hne. unfold get_all_paths_with_purposes.
  destruct (top_level_fuel adj_list end_ start) as [st ->].
  destruct (decide (start = end_)); [done|]. by eexists.
Qed.

(** C3, as amended: over a sequence of mappings, the sources are all the
    source values and the targets all the target values, a missing field
    counting as the empty string; the roots are the sources that are not
    targets and the leaves the targets that are not sources. The empty
    string is a root exactly when some record has a missing or empty source
    and none a missing or empty target, and a leaf in the mirrored case. *)
Theorem boundary_sets (ms : list edge_record) :
  find_root_nodes (Mapping <$> ms)
    = Ok (field_values source ms ∖ field_values target ms)
  ∧ find_leaf_nodes (Mapping <$> ms)
    = Ok (field_values target ms ∖ field_values source ms)
  ∧ ("" ∈ field_values source ms ∖ field_values target ms
     ↔ blank source ms ∧ ¬ blank target ms)
  ∧ ("" ∈ field_values target ms ∖ field_values source ms
     ↔ blank target ms ∧ ¬ blank source ms).
Proof.
  split; [apply find_root_nodes_mappings|].
  split; [apply find_leaf_nodes_mappings|].
  by rewrite !elem_of_difference, !blank_field_values.
Qed.

(** C3 fails as stated: a record with a source and no target makes the empty
    string a leaf, where the sets of non-empty values give no leaf at all. *)
Lemma empty_string_leaf_counterexample :
  let ms := [ {| source := Some "A"; target := None;
                 purposes := None; text := None |} ] in
  find_leaf_nodes (Mapping <$> ms) = Ok {[ "" ]}
  ∧ "" ∈ ({[ "" ]} : gset string)
  ∧ nonempty_field_values target ms ∖ nonempty_field_values source ms = ∅.
Proof.
  split; [|split].
  - by vm_compute.
  - by apply elem_of_singleton.
  - by vm_compute.
Qed.

(** ** The table assembler *)

Lemma elem_of_direct_edges (links : list link) (root leaf : string) (m : edge_record) :
  m ∈ direct_edges links root leaf ↔
  Mapping m ∈ links ∧ source m = Some root ∧ target m = Some leaf.
Proof.
  induction links as [|[|m'] links IH]; simpl.
  - split; [by intros ?%not_elem_of_nil|by intros [?%not_elem_of_nil _]].
  - rewrite IH, elem_of_cons. split; [intros [? ?]; by split; [right|]|].
    intros [[?|?] ?]; [done|by split].
  - destruct (decide (is_direct root leaf m')) as [Hd|Hd];
      rewrite !elem_of_cons, IH; unfold is_direct in Hd.
    + split.
      * intros [->|[? ?]]; [by split; [left|]|by split; [right|]].
      * intros [[[= ->]|?] ?]; [by left|right; by split].
    + split; [intros [? ?]; by split; [right|]|].
      intros [[[= ->]|?] ?]; [done|by split].
Qed.

Lemma scan_link_appends (root leaf : string) (inherited_purposes : purposes_dict)
    (l : link) (rows rows' : list row) :
  scan_link root leaf inherited_purposes l rows = Ok rows' →
  rows' = rows ++ (make_row root leaf inherited_purposes <$> direct_edges [l] root leaf).
Proof.
  destruct l as [|m]; [done|]. unfold scan_link, make_row. simpl.
  destruct m as [[src|] tgt prp txt]; simpl; [|done].
  destruct (decide (src = root)) as [->|Hsrc].
  - destruct tgt as [tgt|]; simpl; [|done].
    destruct (decide (tgt = leaf)) as [->|Htgt].
    + rewrite decide_True by done. by intros [= <-].
    + rewrite decide_False by (intros [_ [= ?]]; done).
      intros [= <-]. by rewrite app_nil_r.
  - rewrite decide_False by (intros [[= ?] _]; done).
    intros [= <-]. by rewrite app_nil_r.
Qed.

Lemma direct_edges_bind {B : Type} (f : edge_record → B) (links : list link)
    (root leaf : string) :
  (links ≫= λ l, f <$> direct_edges [l] root leaf)
  = f <$> direct_edges links root leaf.
Proof.
  induction links as [|[|m] links IH]; [done| |]; rewrite bind_cons, IH; [done|].
  simpl. by destruct (decide (is_direct root leaf m)).
Qed.

Lemma scan_path_appends (links : list link) (root leaf : string)
    (found : list string * purposes_dict) (rows rows' : list row) :
  scan_path links root leaf found rows = Ok rows' →
  rows' = rows ++ (make_row root leaf found.2 <$> direct_edges links root leaf).
Proof.
  unfold scan_path. intros Hrun.
  apply (for_each_appends _
           (λ l, make_row root leaf found.2 <$> direct_edges [l] root leaf)) in Hrun.
  - by rewrite Hrun, direct_edges_bind.
  - intros l s s' _. apply scan_link_appends.
Qed.

Lemma scan_pair_appends (links : list link) (adj_list : adjacency)
    (root leaf : string) (rows rows' : list row) :
  scan_pair links adj_list root leaf rows = Ok rows' →
  rows' = rows ++ pair_rows links root leaf (paths_of adj_list root leaf).
Proof.
  unfold scan_pair, paths_of, pair_rows.
  destruct (get_all_paths_with_purposes adj_list root leaf) as [|paths]; [done|].
  apply for_each_appends. intros found s s' _. apply scan_path_appends.
Qed.

Section Assembler.
Context `{SetIter}.

Lemma elem_of_set_iter (X : gset string) (x : string) : x ∈ set_iter X ↔ x ∈ X.
Proof. by rewrite set_iter_perm, elem_of_elements. Qed.

Lemma collect_rows_Ok (links : list link) (rows : list row) :
  collect_rows links = Ok rows →
  ∃ adj_list roots leaves,
    build_adjacency_list links = Ok adj_list
    ∧ find_root_nodes links = Ok roots
    ∧ find_leaf_nodes links = Ok leaves
    ∧ for_each
        (λ root, for_each (scan_pair links adj_list root) (set_iter leaves))
        (set_iter roots) [] = Ok rows.
Proof.
  unfold collect_rows.
  destruct (build_adjacency_list links) as [adj_list|]; [|done].
  destruct (find_leaf_nodes links) as [leaves|]; [|done].
  destruct (find_root_nodes links) as [roots|]; [|done].
  simpl. intros Hrun. by exists adj_list, roots, leaves.
Qed.

Lemma process_collected (links : list link) (rows : list row) :
  collect_rows links = Ok rows →
  process_yaml_to_organized_data (Dict (Some (LinksList links))) = finish rows.
Proof.
  intros Hrows. unfold process_yaml_to_organized_data, process_body.
  by rewrite Hrows.
Qed.

Lemma process_raises (data : document) :
  is_raise (process_body data) → process_yaml_to_organized_data data = [].
Proof.
  unfold process_yaml_to_organized_data.
  destruct (process_body data) as [df|e]; [done|]. by destruct e.
Qed.

Lemma collect_rows_raises (links : list link) :
  is_raise (collect_rows links) →
  process_yaml_to_organized_data (Dict (Some (LinksList links))) = [].
Proof.
  intros Hr. apply process_raises. simpl.
  by destruct (collect_rows links).
Qed.

End Assembler.

(** ** The public entry point *)

Lemma build_adjacency_list_raises (links : list link) :
  NotMapping ∈ links → is_raise (build_adjacency_list links).
Proof.
  intros Hin. unfold build_adjacency_list.
  by apply (for_each_raises add_link links NotMapping).
Qed.

Section EntryPoint.
Context `{SetIter}.

(** A link whose scan raises for the pair empties the table as soon as the
    pair yields a path. *)
Lemma scan_raises_empty (links : list link) (root leaf : string) (l : link) :
  yields_path links root leaf →
  l ∈ links →
  (∀ inherited_purposes rows, is_raise (scan_link root leaf inherited_purposes l rows)) →
  process_yaml_to_organized_data (Dict (Some (LinksList links))) = [].
Proof.
  intros (adj_list & roots & leaves & found & rest
          & Hadj & Hroots & Hleaves & Hroot & Hleaf & Hpaths) Hin Hl.
  apply collect_rows_raises. unfold collect_rows.
  rewrite Hadj, Hleaves, Hroots. simpl.
  apply (for_each_raises _ _ root); [by apply elem_of_set_iter|]. intros rows.
  apply (for_each_raises _ _ leaf); [by apply elem_of_set_iter|]. clear rows.
  intros rows. unfold scan_pair. rewrite Hpaths.
  apply (for_each_raises _ _ found); [by left|]. clear rows. intros rows.
  unfold scan_path. by apply (for_each_raises _ _ l).
Qed.

(** C5: the entry point returns a table on every input, and the empty one
    when the parser raises, when the document is not a mapping, when it
    has no [links], when [links] is not a sequence, and whenever the body
    of the [try] block raises any exception. *)
Theorem failures_give_empty_table :
  process_yaml_to_organized_data ParseFailure = []
  ∧ process_yaml_to_organized_data NotDict = []
  ∧ process_yaml_to_organized_data (Dict None) = []
  ∧ process_yaml_to_organized_data (Dict (Some LinksNotList)) = []
  ∧ (∀ data e, process_body data = Raise e →
       process_yaml_to_organized_data data = [])
  ∧ (∀ links e, collect_rows links = Raise e →
       process_yaml_to_organized_data (Dict (Some (LinksList links))) = [])
  ∧ (∀ data, ∃ df,
       process_yaml_to_organized_data data = df
       ∧ (process_body data = Ok df
          ∨ (df = [] ∧ is_raise (process_body data)))).
Proof.
  do 4 (split; [done|]). split; [|split].
  - intros data e He. apply process_raises. by rewrite He.
  - intros links e He. apply collect_rows_raises. by rewrite He.
  - intros data. unfold process_yaml_to_organized_data.
    destruct (process_body data) as [df|e].
    + exists df. split; [done|by left].
    + exists []. split; [by destruct e|by right].
Qed.

(** C6: the table returned is sorted ascending by the pair of data type and
    collector and holds no row twice; sorting and deduplication keep
    exactly the rows collected, so equal rows from several paths become
    one row. *)
Theorem table_sorted_without_duplicates (data : document) :
  StronglySorted key_le (process_yaml_to_organized_data data)
  ∧ NoDup (process_yaml_to_organized_data data)
  ∧ (∀ links rows r,
       data = Dict (Some (LinksList links)) →
       collect_rows links = Ok rows →
       (r ∈ process_yaml_to_organized_data data ↔ r ∈ rows)).
Proof.
  assert (∀ links rows, data = Dict (Some (LinksList links)) →
            collect_rows links = Ok rows →
            process_yaml_to_organized_data data = finish rows) as Hfin.
  { intros links rows -> Hrows. by apply process_collected. }
  split; [|split].
  - destruct data as [| |[[|links]|]]; try by constructor.
    destruct (collect_rows links) as [rows|e] eqn:Hrows.
    + rewrite (Hfin links rows eq_refl Hrows). apply finish_sorted.
    + rewrite collect_rows_raises by by rewrite Hrows. constructor.
  - destruct data as [| |[[|links]|]]; try by constructor.
    destruct (collect_rows links) as [rows|e] eqn:Hrows.
    + rewrite (Hfin links rows eq_refl Hrows). apply finish_NoDup.
    + rewrite collect_rows_raises by by rewrite Hrows. constructor.
  - intros links rows r Hd Hrows. rewrite (Hfin links rows Hd Hrows).
    apply elem_of_finish.
Qed.
End EntryPoint.

(** C10 fails as stated for a missing target: the second record has no
    [target], the pair of "A" and "B" yields a path, and the table still has
    its row, in whatever order the sets are run through. *)
Lemma missing_target_counterexample :
  let links :=
    [ Mapping {| source := Some "A"; target := Some "B";
                 purposes := Some [("p1", ["x"])]; text := Some ["hello"] |};
      Mapping {| source := Some "X"; target := None;
                 purposes := None; text := None |} ] in
  yields_path links "A" "B"
  ∧ (∃ m, Mapping m ∈ links ∧ target m = None)
  ∧ ∀ I : SetIter,
      @process_yaml_to_organized_data I (Dict (Some (LinksList links)))
      = [ {| data_type := "B"; collector := "A";
             purpose := "p1"; text_content := "hello" |} ].
Proof.
  intros links.
  assert (build_adjacency_list links = Ok {[ "A" := [("B", [("p1", ["x"])])] ]})
    as Hadj by (by vm_compute).
  assert (find_root_nodes links = Ok {[ "A"; "X" ]}) as Hroots by (by vm_compute).
  assert (find_leaf_nodes links = Ok {[ "B"; "" ]}) as Hleaves by (by vm_compute).
  split; [|split].
  - exists {[ "A" := [("B", [("p1", ["x"])])] ]}, {[ "A"; "X" ]}, {[ "B"; "" ]},
      (["A"; "B"], [("p1", ["x"])]), [].
    do 3 (split; [done|]). by vm_compute.
  - eexists. split; [right; left|]; done.
  - intros I. unfold process_yaml_to_organized_data, process_body, collect_rows.
    rewrite Hadj, Hleaves, Hroots. 
    pose proof (set_iter_perm {[ "A"; "X" ]}) as Hr.
    pose proof (set_iter_perm {[ "B"; "" ]}) as Hl.
    assert (elements ({[ "A"; "X" ]} : gset string) = ["A"; "X"]) as Er by (by vm_compute).
    assert (elements ({[ "B"; "" ]} : gset string) = ["B"; ""]) as El by (by vm_compute).
    rewrite Er in Hr. rewrite El in Hl.
    symmetry in Hr, Hl.
    apply Permutation_length_2_inv in Hr, Hl. 
    unfold mbind, result_bind.
    destruct Hr as [-> | ->], Hl as [-> | ->]; by vm_compute.
Qed.

(** C8: for the document with the single edge from "A" to "B", purposes
    {"p1": ["x"]} and text ["hello"], the roots are {"A"}, the leaves are
    {"B"}, and the table is the one row with data type "B", collector "A",
    purpose "p1" and text "hello". *)
Theorem single_edge_document `{SetIter} :
  let links :=
    [ Mapping {| source := Some "A"; target := Some "B";
                 purposes := Some [("p1", ["x"])]; text := Some ["hello"] |} ] in
  find_root_nodes links = Ok {[ "A" ]}
  ∧ find_leaf_nodes links = Ok {[ "B" ]}
  ∧ process_yaml_to_organized_data (Dict (Some (LinksList links)))
    = [ {| data_type := "B"; collector := "A";
           purpose := "p1"; text_content := "hello" |} ].
Proof.
  intros links.
  assert (build_adjacency_list links = Ok {[ "A" := [("B", [("p1", ["x"])])] ]})
    as Hadj by (by vm_compute).
  assert (find_root_nodes links = Ok {[ "A" ]}) as Hroots by (by vm_compute).
  assert (find_leaf_nodes links = Ok {[ "B" ]}) as Hleaves by (by vm_compute).
  do 2 (split; [done|]).
  unfold process_yaml_to_organized_data, process_body, collect_rows.
  rewrite Hadj, Hleaves, Hroots.
  pose proof (set_iter_perm {[ "A" ]}) as Hr.
  pose proof (set_iter_perm {[ "B" ]}) as Hl.
  rewrite elements_singleton in Hr, Hl.
  apply Permutation_singleton_r in Hr, Hl.
  unfold mbind, result_bind. rewrite Hr, Hl. by vm_compute.
Qed.

(** ** The path enumerator on its own *)

(** C1, evaluated where it fails: from "A" the edge to "B" is explored first
    and leads nowhere, yet its category "p1" is reported for the path from
    "A" to "C", whose only edge carries "p2". *)
Theorem sibling_purposes_leak :
  let adj_list : adjacency :=
    {[ "A" := [("B", [("p1", ["x"])]); ("C", [("p2", ["y"])])] ]} in
  get_all_paths_with_purposes adj_list "A" "C"
    = PyList [(["A"; "C"], [("p1", ["x"]); ("p2", ["y"])])]
  ∧ path_purposes [[("p2", ["y"])]] = [("p2", ["y"])].
Proof. split; by vm_compute. Qed.

(** The lists of a snapshot are those of the accumulator: the path found
    first shows entries added after it was recorded. *)
Example snapshot_shares_lists :
  let adj_list : adjacency :=
    <[ "A" := [("C", [("p", ["x"])]); ("B", [("p", ["y"])])] ]>
      {[ "B" := [("C", [("p", ["z"]); ("q", ["w"])])] ]} in
  get_all_paths_with_purposes adj_list "A" "C"
    = PyList [(["A"; "C"], [("p", ["x"; "y"; "z"])]);
              (["A"; "B"; "C"], [("p", ["x"; "y"; "z"]); ("q", ["w"])])].
Proof. by vm_compute. Qed.

(** C2, evaluated where it fails: with equal endpoints the one-node path is
    recorded, with an empty snapshot and without a look at the adjacency
    mapping, but the call returns [None], not the list holding it. *)
Theorem one_node_call_returns_None (adj_list : adjacency) (n : string) :
  get_all_paths_with_purposes adj_list n n = PyNone
  ∧ ∀ fuel,
      dfs (S fuel) adj_list n n [] empty_store
      = Some {| heap := []; purposes_accumulated := []; all_paths := [([n], [])] |}.
Proof.
  split.
  - unfold get_all_paths_with_purposes.
    destruct (dfs _ adj_list n n [] empty_store); [|done].
    by rewrite decide_True.
  - intros fuel. simpl. by rewrite decide_True.
Qed.

(** C7: the search ends. From any state, every amount of fuel above the
    number of admissible nodes gives the same final store, and the fuel of
    the outermost call is such an amount; each recursive call is on a node
    outside the path and leaves strictly fewer admissible nodes. An edge
    from the current node to itself is passed over, and deleting all
    self-loops from the adjacency mapping changes no result. *)
Theorem search_terminates (adj_list : adjacency) (start end_ : string)
    (path : list string) (st : store) :
  (∃ st', ∀ fuel,
     size (admissible adj_list (path ++ [start])) < fuel →
     dfs fuel adj_list start end_ path st = Some st')
  ∧ (∃ st', dfs (S (size (targets_of adj_list))) adj_list start end_ [] empty_store
            = Some st')
  ∧ (∀ next_node prp,
       (next_node, prp) ∈ adj_get adj_list start →
       next_node ∉ path ++ [start] →
       size (admissible adj_list ((path ++ [start]) ++ [next_node]))
       < size (admissible adj_list (path ++ [start])))
  ∧ (∀ rec prp edges st0,
       visit rec (path ++ [start]) ((start, prp) :: edges) st0
       = visit rec (path ++ [start]) edges st0)
  ∧ get_all_paths_with_purposes (remove_self_loops adj_list) start end_
    = get_all_paths_with_purposes adj_list start end_.
Proof.
  split; [apply dfs_terminates|].
  split; [apply top_level_fuel|].
  split; [|split].
  - intros next_node prp Hin Hnot. apply admissible_shrinks; [|done].
    by eapply adj_get_targets.
  - intros rec prp edges st0. apply visit_skip.
    apply elem_of_app. right. by apply list_elem_of_singleton.
  - apply get_all_paths_remove_self_loops.
Qed.

(** * Further properties *)

(** ** The adjacency list *)

Lemma all_mappings (links : list link) :
  NotMapping ∉ links → ∃ ms, links = Mapping <$> ms.
Proof.
  induction links as [|[|m] links IH]; intros Hnot.
  - by exists [].
  - exfalso. apply Hnot. by left.
  - destruct IH as [ms ->]; [by intros ?; apply Hnot; right|]. by exists (m :: ms).
Qed.

Lemma mappings_or_not (links : list link) :
  NotMapping ∈ links ∨ ∃ ms, links = Mapping <$> ms.
Proof.
  induction links as [|[|m] links [Hin|[ms ->]]].
  - right. by exists [].
  - left. by left.
  - left. by left.
  - left. by right.
  - right. by exists (m :: ms).
Qed.

Lemma not_mapping_fmap (ms : list edge_record) : NotMapping ∉ Mapping <$> ms.
Proof. by intros (m & ? & _)%list_elem_of_fmap. Qed.

Lemma truthy_nonempty (s : string) : truthy s = true ↔ s ≠ "".
Proof. by destruct s. Qed.

Lemma elem_of_out_edges (ms : list edge_record) (node tgt : string)
    (prp : purposes_dict) :
  (tgt, prp) ∈ out_edges ms node ↔
  ∃ m, m ∈ ms ∧ default "" (source m) = node ∧ node ≠ "" ∧ tgt ≠ ""
       ∧ tgt = default "" (target m) ∧ prp = default [] (purposes m).
Proof.
  unfold out_edges. rewrite list_elem_of_bind. split.
  - intros (m & Hin & Hm). exists m. split; [done|].
    destruct (decide (default "" (source m) = node)) as [<-|]; [|by apply not_elem_of_nil in Hin].
    destruct (truthy (default "" (source m))) eqn:Hs; simpl in Hin;
      [|by apply not_elem_of_nil in Hin].
    destruct (truthy (default "" (target m))) eqn:Ht; simpl in Hin;
      [|by apply not_elem_of_nil in Hin].
    apply list_elem_of_singleton in Hin as [= -> ->].
    by rewrite <- !truthy_nonempty.
  - intros (m & Hin & <- & Hs & Ht & -> & ->). exists m. split; [|done].
    rewrite decide_True by done.
    apply truthy_nonempty in Hs, Ht. rewrite Hs, Ht. by left.
Qed.

Lemma out_edges_cons (m : edge_record) (ms : list edge_record) (node : string) :
  out_edges (m :: ms) node = out_edges [m] node ++ out_edges ms node.
Proof. unfold out_edges. by rewrite !bind_cons, app_nil_r. Qed.

Lemma out_edges_empty_node (ms : list edge_record) : out_edges ms "" = [].
Proof.
  destruct (out_edges ms "") as [|[tgt prp] edges] eqn:Hout; [done|].
  assert ((tgt, prp) ∈ out_edges ms "") as Hin by (rewrite Hout; by left).
  by apply elem_of_out_edges in Hin as (m & _ & _ & ? & _).
Qed.

Lemma for_each_cons {A S : Type} (body : A → S → result S) (x : A) (xs : list A)
    (s : S) :
  for_each body (x :: xs) s = s' ← body x s; for_each body xs s'.
Proof. done. Qed.

Lemma add_link_mapping (m : edge_record) (adj_list : adjacency) :
  add_link (Mapping m) adj_list
  = Ok (if truthy (default "" (source m)) && truthy (default "" (target m))
        then <[default "" (source m) :=
                 adj_get adj_list (default "" (source m))
                 ++ [(default "" (target m), default [] (purposes m))]]> adj_list
        else adj_list).
Proof.
  unfold add_link. simpl.
  by destruct (truthy (default "" (source m)) && truthy (default "" (target m))).
Qed.

(** What the loop of [build_adjacency_list] does to a dictionary that holds
    no empty list: each node gains its outgoing edges at the end of its list. *)
Lemma for_each_add_link (ms : list edge_record) :
  ∀ adj0 : adjacency,
    (∀ node, adj0 !! node ≠ Some []) →
    ∃ adj_list : adjacency,
      for_each add_link (Mapping <$> ms) adj0 = Ok adj_list
      ∧ (∀ node, adj_list !! node ≠ Some [])
      ∧ ∀ node, adj_get adj_list node = adj_get adj0 node ++ out_edges ms node.
Proof.
  induction ms as [|m ms IH]; intros adj0 Hne.
  - exists adj0. split; [done|]. split; [done|]. intros node. by rewrite app_nil_r.
  - rewrite fmap_cons, for_each_cons, add_link_mapping.
    set (src := default "" (source m)). set (tgt := default "" (target m)).
    set (prp := default [] (purposes m)).
    destruct (truthy src && truthy tgt) eqn:Hok;
      change (Ok ?a ≫= ?f) with (f a); cbv beta.
    + destruct (IH (<[src := adj_get adj0 src ++ [(tgt, prp)]]> adj0))
        as (adj_list & Hrun & Hne' & Hget).
      { intros node. destruct (decide (src = node)) as [<-|Hn].
        - rewrite lookup_insert_eq. intros [= Heq]. by destruct (adj_get adj0 src).
        - rewrite lookup_insert_ne by done. apply Hne. }
      exists adj_list. split; [done|]. split; [done|]. intros node.
      rewrite Hget, out_edges_cons, app_assoc. f_equal.
      unfold adj_get at 1, out_edges. rewrite bind_singleton.
      fold src tgt prp. rewrite Hok.
      destruct (decide (src = node)) as [<-|Hn].
      * by rewrite lookup_insert_eq.
      * rewrite lookup_insert_ne by done. by rewrite app_nil_r.
    + destruct (IH adj0 Hne) as (adj_list & Hrun & Hne' & Hget).
      exists adj_list. split; [done|]. split; [done|]. intros node.
      rewrite Hget, out_edges_cons. f_equal.
      unfold out_edges at 2. rewrite bind_singleton. fold src tgt. rewrite Hok.
      by destruct (decide (src = node)).
Qed.

Lemma build_adjacency_list_mappings (ms : list edge_record) :
  ∃ adj_list : adjacency,
    build_adjacency_list (Mapping <$> ms) = Ok adj_list
    ∧ ∀ node,
        adj_list !! node
        = match out_edges ms node with
          | [] => None
          | edges => Some edges
          end.
Proof.
  destruct (for_each_add_link ms ∅) as (adj_list & Hrun & Hne & Hget).
  { intros node. by rewrite lookup_empty. }
  exists adj_list. split; [done|].
  intros node. specialize (Hget node). specialize (Hne node).
  unfold adj_get in Hget. rewrite lookup_empty in Hget. simpl in Hget.
  destruct (adj_list !! node) as [[|e edges]|]; simpl in Hget.
  - done.
  - by rewrite <- Hget.
  - by rewrite <- Hget.
Qed.

(** X1: on a sequence of mappings the adjacency list is built without error;
    a node is a key exactly when some record has it as source with source and
    target both non-empty, and its value lists those records' targets and
    purposes in the order of the records, an absent [purposes] read as the
    empty dictionary. In particular the empty string is no key and no
    stored list is empty. *)
Theorem adjacency_lookup (ms : list edge_record) :
  ∃ adj_list : adjacency,
    build_adjacency_list (Mapping <$> ms) = Ok adj_list
    ∧ (∀ node,
         adj_list !! node
         = match out_edges ms node with
           | [] => None
           | edges => Some edges
           end)
    ∧ adj_list !! "" = None
    ∧ ∀ node, adj_list !! node ≠ Some [].
Proof.
  destruct (build_adjacency_list_mappings ms) as (adj_list & Hrun & Hlook).
  exists adj_list. do 2 (split; [done|]). split.
  - by rewrite Hlook, out_edges_empty_node.
  - intros node. rewrite Hlook. by destruct (out_edges ms node).
Qed.

(** ** Elements that are not mappings *)

Lemma for_each_add_link_raises (links : list link) :
  NotMapping ∈ links →
  ∀ adj_list : adjacency, for_each add_link links adj_list = Raise AttributeError.
Proof.
  induction links as [|[|m] links IH]; intros Hin adj_list.
  - by apply not_elem_of_nil in Hin.
  - done.
  - rewrite for_each_cons, add_link_mapping.
    apply elem_of_cons in Hin as [?|Hin]; [done|]. by apply IH.
Qed.

Lemma field_set_raises (field : edge_record → option string) (links : list link) :
  NotMapping ∈ links → field_set field links = Raise AttributeError.
Proof.
  induction links as [|[|m] links IH]; intros Hin.
  - by apply not_elem_of_nil in Hin.
  - done.
  - apply elem_of_cons in Hin as [?|Hin]; [done|]. simpl. by rewrite IH.
Qed.

(** X2: the adjacency builder, the root detection and the leaf detection
    each raise [AttributeError] when some element of the edge list is not a
    mapping, and each return normally when all elements are mappings,
    whatever fields these lack. *)
Theorem non_mapping_raises (links : list link) :
  (NotMapping ∈ links →
     build_adjacency_list links = Raise AttributeError
     ∧ find_root_nodes links = Raise AttributeError
     ∧ find_leaf_nodes links = Raise AttributeError)
  ∧ (NotMapping ∉ links →
     ∃ adj_list roots leaves,
       build_adjacency_list links = Ok adj_list
       ∧ find_root_nodes links = Ok roots
       ∧ find_leaf_nodes links = Ok leaves).
Proof.
  split.
  - intros Hin. split; [by apply for_each_add_link_raises|].
    unfold find_root_nodes, find_leaf_nodes.
    by rewrite (field_set_raises source links Hin).
  - intros (ms & ->)%all_mappings.
    destruct (build_adjacency_list_mappings ms) as (adj_list & Hrun & _).
    exists adj_list, (field_values source ms ∖ field_values target ms),
      (field_values target ms ∖ field_values source ms).
    split; [done|].
    by rewrite find_root_nodes_mappings, find_leaf_nodes_mappings.
Qed.

(** ** The detected sets against the adjacency list *)

Lemma results_are_mappings (links : list link) (roots : gset string) :
  find_root_nodes links = Ok roots → ∃ ms, links = Mapping <$> ms.
Proof.
  intros Hroots. apply all_mappings. intros Hin.
  unfold find_root_nodes in Hroots.
  by rewrite (field_set_raises source links Hin) in Hroots.
Qed.

(** X3: a leaf has no entry in the adjacency list, so the search stops
    there, and a root is the target of no edge of the adjacency list, so no
    path passes through it; every key of the adjacency list is a source and
    every target in it a target of the edge list. *)
Theorem boundary_against_adjacency (links : list link) (adj_list : adjacency)
    (roots leaves : gset string) :
  build_adjacency_list links = Ok adj_list →
  find_root_nodes links = Ok roots →
  find_leaf_nodes links = Ok leaves →
  (∀ leaf, leaf ∈ leaves → adj_list !! leaf = None)
  ∧ (∀ root, root ∈ roots → root ∉ targets_of adj_list)
  ∧ (∀ node, is_Some (adj_list !! node) → node ∉ leaves)
  ∧ (∀ node, node ∈ targets_of adj_list → node ∉ roots).
Proof.
  intros Hadj Hroots Hleaves.
  destruct (results_are_mappings links roots Hroots) as [ms ->].
  destruct (build_adjacency_list_mappings ms) as (adj' & Hrun & Hlook).
  rewrite Hrun in Hadj. injection Hadj as ->.
  rewrite find_root_nodes_mappings in Hroots. injection Hroots as <-.
  rewrite find_leaf_nodes_mappings in Hleaves. injection Hleaves as <-.
  assert (∀ node, is_Some (adj_list !! node) → node ∈ field_values source ms)
    as Hkeys.
  { intros node. rewrite Hlook.
    destruct (out_edges ms node) as [|[tgt prp] edges] eqn:Hout; [by intros [? ?]|].
    intros _. assert ((tgt, prp) ∈ out_edges ms node) as Hin by (rewrite Hout; by left).
    apply elem_of_out_edges in Hin as (m & Hm & Hs & _).
    apply elem_of_field_values. by exists m. }
  assert (∀ node, node ∈ targets_of adj_list → node ∈ field_values target ms)
    as Htargets.
  { intros node (src & edges & Hsrc & Hin)%elem_of_targets_of.
    apply list_elem_of_fmap in Hin as ([tgt prp] & -> & Hin).
    rewrite Hlook in Hsrc.
    assert ((tgt, prp) ∈ out_edges ms src) as Hout.
    { destruct (out_edges ms src); [done|]. by injection Hsrc as <-. }
    apply elem_of_out_edges in Hout as (m & Hm & _ & _ & _ & -> & _).
    apply elem_of_field_values. by exists m. }
  split; [|split; [|split]].
  - intros leaf [_ Hns]%elem_of_difference.
    destruct (adj_list !! leaf) as [edges|] eqn:Hl; [|done].
    exfalso. apply Hns, Hkeys. by rewrite Hl.
  - intros root [_ Hnt]%elem_of_difference Hin. by apply Hnt, Htargets.
  - intros node Hsome [_ Hns]%elem_of_difference. by apply Hns, Hkeys.
  - intros node Hin [_ Hnt]%elem_of_difference. by apply Hnt, Htargets.
Qed.

Lemma boundary_against_adjacency_witness :
  let links :=
    [ Mapping {| source := Some "A"; target := Some "B";
                 purposes := None; text := None |};
      Mapping {| source := Some "B"; target := Some "C";
                 purposes := None; text := None |} ] in
  let adj_list : adjacency := <[ "B" := [("C", [])] ]> {[ "A" := [("B", [])] ]} in
  build_adjacency_list links = Ok adj_list
  ∧ find_root_nodes links = Ok {[ "A" ]}
  ∧ find_leaf_nodes links = Ok {[ "C" ]}
  ∧ adj_list !! "C" = None.
Proof.
  intros links adj_list.
  assert (build_adjacency_list links = Ok adj_list) as Hadj by (by vm_compute).
  assert (find_root_nodes links = Ok {[ "A" ]}) as Hroots by (by vm_compute).
  assert (find_leaf_nodes links = Ok {[ "C" ]}) as Hleaves by (by vm_compute).
  do 3 (split; [done|]).
  apply (proj1 (boundary_against_adjacency _ _ _ _ Hadj Hroots Hleaves)).
  by apply elem_of_singleton.
Defined.

(** ** The order of the edge list *)

Lemma field_set_elements (field : edge_record → option string) (ms : list edge_record)
    (s : string) :
  s ∈ field_values field ms ↔ ∃ m, Mapping m ∈ Mapping <$> ms ∧ default "" (field m) = s.
Proof.
  rewrite elem_of_field_values. split; intros (m & Hin & Hm); exists m; (split; [|done]).
  - apply list_elem_of_fmap. by exists m.
  - by apply list_elem_of_fmap in Hin as (m' & [= ->] & ?).
Qed.

Lemma field_set_permutation (field : edge_record → option string)
    (links links' : list link) :
  links ≡ₚ links' → field_set field links = field_set field links'.
Proof.
  intros Hperm. destruct (mappings_or_not links) as [Hin|[ms Hms]].
  - rewrite (field_set_raises field links Hin).
    rewrite Hperm in Hin. by rewrite (field_set_raises field links' Hin).
  - assert (NotMapping ∉ links') as Hnot.
    { rewrite <- Hperm, Hms. apply not_mapping_fmap. }
    destruct (all_mappings links' Hnot) as [ms' Hms'].
    subst links links'. rewrite !field_set_mappings. f_equal.
    apply set_eq. intros s. rewrite !field_set_elements.
    split; intros (m & Hin & Hm); exists m; (split; [|done]).
    + by rewrite <- Hperm.
    + by rewrite Hperm.
Qed.

(** X4: the roots and the leaves do not depend on the order of the edge
    list: two edge lists with the same records in different orders, or with
    records repeated in different places, give the same outcome, exception
    included. *)
Theorem boundary_order_independent (links links' : list link) :
  links ≡ₚ links' →
  find_root_nodes links = find_root_nodes links'
  ∧ find_leaf_nodes links = find_leaf_nodes links'.
Proof.
  intros Hperm. unfold find_root_nodes, find_leaf_nodes.
  by rewrite (field_set_permutation source links links' Hperm),
             (field_set_permutation target links links' Hperm).
Qed.

Lemma boundary_order_independent_witness :
  let l1 := Mapping {| source := Some "A"; target := Some "B";
                       purposes := None; text := None |} in
  let l2 := Mapping {| source := Some "B"; target := None;
                       purposes := None; text := None |} in
  [l1; l2] ≡ₚ [l2; l1]
  ∧ find_root_nodes [l1; l2] = find_root_nodes [l2; l1].
Proof.
  intros l1 l2.
  assert ([l1; l2] ≡ₚ [l2; l1]) as Hperm by apply Permutation_swap.
  split; [exact Hperm|].
  exact (proj1 (boundary_order_independent _ _ Hperm)).
Defined.

(** ** The paths the search records *)

Lemma dict_lookup_None {V : Type} (k : string) (d : pydict V) :
  dict_lookup k d = None ↔ k ∉ d.*1.
Proof.
  induction d as [|[k' v] d IH]; simpl.
  - split; [intros _; apply not_elem_of_nil|done].
  - rewrite not_elem_of_cons. destruct (decide (k = k')) as [->|Hne].
    + split; [done|]. by intros [? _].
    + rewrite IH. split; [done|]. by intros [_ ?].
Qed.

Lemma dict_lookup_Some_key {V : Type} (k : string) (d : pydict V) (v : V) :
  dict_lookup k d = Some v → k ∈ d.*1.
Proof.
  intros Hl. destruct (decide (k ∈ d.*1)) as [|Hn]; [done|].
  apply dict_lookup_None in Hn. congruence.
Qed.

Lemma extend_category_all_paths (st : store) (entry : string * list string) :
  all_paths (extend_category st entry) = all_paths st.
Proof.
  destruct entry as [category items]. unfold extend_category.
  by destruct (dict_lookup category (purposes_accumulated st)).
Qed.

Lemma extend_category_prefix (st : store) (entry : string * list string) :
  purposes_accumulated st `prefix_of` purposes_accumulated (extend_category st entry).
Proof.
  destruct entry as [category items]. unfold extend_category.
  destruct (dict_lookup category (purposes_accumulated st)); simpl.
  - done.
  - by apply prefix_app_r.
Qed.

Lemma extend_category_key (st : store) (category : string) (items : list string) :
  category ∈ (purposes_accumulated (extend_category st (category, items))).*1.
Proof.
  unfold extend_category.
  destruct (dict_lookup category (purposes_accumulated st)) as [a|] eqn:Hl; simpl.
  - by eapply dict_lookup_Some_key.
  - rewrite fmap_app. apply elem_of_app. right. by left.
Qed.

Lemma accumulate_all_paths (prp : purposes_dict) (st : store) :
  all_paths (accumulate prp st) = all_paths st.
Proof.
  unfold accumulate. revert st. induction prp as [|e prp IH]; intros st; simpl; [done|].
  by rewrite IH, extend_category_all_paths.
Qed.

Lemma accumulate_prefix (prp : purposes_dict) (st : store) :
  purposes_accumulated st `prefix_of` purposes_accumulated (accumulate prp st).
Proof.
  unfold accumulate. revert st. induction prp as [|e prp IH]; intros st; simpl; [done|].
  etrans; [apply extend_category_prefix|apply IH].
Qed.

Lemma prefix_keys {V : Type} (d1 d2 : pydict V) :
  d1 `prefix_of` d2 → d1.*1 ⊆ d2.*1.
Proof.
  intros [d ->] k. rewrite fmap_app, elem_of_app. by left.
Qed.

Lemma accumulate_keys (prp : purposes_dict) (st : store) :
  prp.*1 ⊆ (purposes_accumulated (accumulate prp st)).*1.
Proof.
  unfold accumulate. revert st.
  induction prp as [|[category items] prp IH]; intros st k; simpl.
  - by intros ?%not_elem_of_nil.
  - intros [->|Hin]%elem_of_cons; [|by apply IH].
    eapply prefix_keys; [apply (accumulate_prefix prp)|].
    apply extend_category_key.
Qed.

Lemma covered_walk_mono (adj_list : adjacency) (keys keys' : list string)
    (node : string) (further : list string) :
  keys ⊆ keys' → covered_walk adj_list keys node further →
  covered_walk adj_list keys' node further.
Proof.
  intros Hsub. revert node. induction further as [|next_node further IH]; intros node.
  - done.
  - simpl. intros [(prp & Hin & Hk) Hrest]. split; [|by apply IH].
    exists prp. split; [done|]. by etrans.
Qed.

Lemma covered_walk_walk (adj_list : adjacency) (keys : list string)
    (node : string) (further : list string) :
  covered_walk adj_list keys node further → walk adj_list node further.
Proof.
  revert node. induction further as [|next_node further IH]; intros node; [done|].
  simpl. intros [(prp & Hin & _) Hrest]. split; [by exists prp|by apply IH].
Qed.

Section Recorded.
Variable adj_list : adjacency.
Variable end_ : string.

Lemma recorded_weaken (path : list string) (start : string)
    (acc0 acc0' acc1 acc1' : pydict nat) (e : list string * pydict nat) :
  acc0' `prefix_of` acc0 → acc1 `prefix_of` acc1' →
  recorded adj_list end_ path start acc0 acc1 e → recorded adj_list end_ path start acc0' acc1' e.
Proof.
  intros H0 H1 (further & ? & ? & ? & ? & ? & ?).
  exists further. do 4 (split; [done|]). split; by etrans.
Qed.

Lemma visit_extends (fuel : nat) (path : list string) (start : string) :
  (∀ next_node st st',
     dfs fuel adj_list next_node end_ (path ++ [start]) st = Some st' →
     NoDup ((path ++ [start]) ++ [next_node]) →
     extends adj_list end_ (path ++ [start]) next_node st st') →
  NoDup (path ++ [start]) → start ≠ end_ →
  ∀ edges st st',
    edges ⊆ adj_get adj_list start →
    visit (λ next_node st, dfs fuel adj_list next_node end_ (path ++ [start]) st)
      (path ++ [start]) edges st = Some st' →
    extends adj_list end_ path start st st'.
Proof.
  intros IHdfs Hnd Hne.
  induction edges as [|[next_node prp] edges IH]; intros st st' Hsub Hrun.
  - injection Hrun as <-. split; [done|]. exists [].
    rewrite app_nil_r. repeat split; constructor.
  - simpl in Hrun.
    assert (edges ⊆ adj_get adj_list start) as Hsub'.
    { intros e He. apply Hsub. by right. }
    destruct (decide (next_node ∈ path ++ [start])) as [|Hfresh]; [by apply IH|].
    destruct (dfs fuel adj_list next_node end_ (path ++ [start]) (accumulate prp st))
      as [st1|] eqn:Hcall; [|done].
    apply IHdfs in Hcall as [Hacc1 (new1 & Hall1 & Hnew1 & Hs1)].
    2:{ apply NoDup_app. split; [done|]. split; [|apply NoDup_singleton].
        intros x Hx ->%list_elem_of_singleton. done. }
    apply IH in Hrun as [Hacc2 (new2 & Hall2 & Hnew2 & Hs2)]; [|done].
    pose proof (accumulate_prefix prp st) as Hacc0.
    split; [by etrans; [|etrans]|].
    exists (new1 ++ new2). split; [|split].
    + rewrite Hall2, Hall1, accumulate_all_paths. by rewrite app_assoc.
    + apply Forall_app. split.
      * eapply Forall_impl; [exact Hnew1|]. intros e (further & He & Hw & Hl & Hd & Hp0 & Hp1).
        exists (next_node :: further). split; [by rewrite He, <- app_assoc|].
        split; [|split; [done|split; [done|split]]].
        -- simpl. split; [|done]. exists prp. split; [apply Hsub; by left|].
           etrans; [apply (accumulate_keys prp st)|]. by apply prefix_keys.
        -- by etrans.
        -- by etrans.
      * eapply Forall_impl; [exact Hnew2|]. intros e.
        apply recorded_weaken; [by etrans|done].
    + apply StronglySorted_app_2; [|done|done].
      intros e1 e2 He1 He2.
      eapply Forall_forall in Hnew1 as (_ & _ & _ & _ & _ & _ & Hp1); [|exact He1].
      eapply Forall_forall in Hnew2 as (_ & _ & _ & _ & _ & Hp2 & _); [|exact He2].
      by etrans.
Qed.

Lemma dfs_extends (fuel : nat) :
  ∀ start path st st',
    dfs fuel adj_list start end_ path st = Some st' →
    NoDup (path ++ [start]) →
    extends adj_list end_ path start st st'.
Proof.
  induction fuel as [|fuel IH]; intros start path st st' Hrun Hnd; [done|].
  simpl in Hrun. destruct (decide (start = end_)) as [->|Hne].
  - injection Hrun as <-. split; [done|].
    exists [(path ++ [end_], purposes_accumulated st)]. split; [done|]. split.
    + constructor; [|constructor]. exists []. simpl. by repeat split.
    + by repeat constructor.
  - eapply (visit_extends fuel path start); [|done|done| |exact Hrun]; [|done].
    intros next_node s s'. apply IH.
Qed.
End Recorded.

(** ** What the enumerator returns *)

Lemma get_all_paths_PyList (adj_list : adjacency) (start end_ : string)
    (found : list (list string * purposes_dict)) :
  get_all_paths_with_purposes adj_list start end_ = PyList found →
  start ≠ end_
  ∧ ∃ st, dfs (S (size (targets_of adj_list))) adj_list start end_ [] empty_store
          = Some st
          ∧ found = results st.
Proof.
  unfold get_all_paths_with_purposes.
  destruct (dfs _ adj_list start end_ [] empty_store) as [st|]; [|done].
  destruct (decide (start = end_)); [done|]. intros [= <-]. split; [done|].
  by exists st.
Qed.

Lemma resolve_keys (h : list (list string)) (snapshot : pydict nat) :
  (resolve h snapshot).*1 = snapshot.*1.
Proof. unfold resolve. rewrite <- list_fmap_compose. by apply list_fmap_ext. Qed.

Lemma resolve_prefix (h : list (list string)) (s1 s2 : pydict nat) :
  s1 `prefix_of` s2 → resolve h s1 `prefix_of` resolve h s2.
Proof. intros [s ->]. unfold resolve. rewrite fmap_app. by apply prefix_app_r. Qed.

(** Each entry of the list returned has been recorded by the search. *)
Lemma results_recorded (adj_list : adjacency) (start end_ : string)
    (found : list (list string * purposes_dict)) (p : list string) (acc : purposes_dict) :
  get_all_paths_with_purposes adj_list start end_ = PyList found →
  (p, acc) ∈ found →
  start ≠ end_
  ∧ ∃ further,
      p = start :: further
      ∧ covered_walk adj_list acc.*1 start further
      ∧ last (start :: further) = Some end_
      ∧ NoDup p.
Proof.
  intros (Hne & st & Hrun & ->)%get_all_paths_PyList Hin. split; [done|].
  apply dfs_extends in Hrun as [_ (new & Hall & Hnew & _)];
    [|apply NoDup_singleton].
  simpl in Hall. unfold results in Hin.
  apply list_elem_of_fmap in Hin as ([p' snap] & [= -> ->] & Hin).
  rewrite Hall in Hin. eapply Forall_forall in Hnew; [|exact Hin].
  destruct Hnew as (further & Hp & Hw & Hl & Hd & _). simpl in *.
  exists further. rewrite resolve_keys. by rewrite Hp in *.
Qed.

Lemma walk_last_target (adj_list : adjacency) (further : list string) :
  ∀ node final,
    walk adj_list node further → last further = Some final →
    final ∈ targets_of adj_list.
Proof.
  induction further as [|next_node further IH]; intros node final Hw Hl; [done|].
  destruct Hw as [[prp Hin] Hw]. destruct further as [|n' further].
  - injection Hl as <-. by eapply adj_get_targets.
  - by eapply (IH next_node).
Qed.

(** X5: every path the enumerator returns starts at the start node, ends at
    the end node, repeats no node, has at least two nodes, and moves from
    each node to the next along an edge of the adjacency list. *)
Theorem returned_paths_are_simple (adj_list : adjacency) (start end_ : string)
    (found : list (list string * purposes_dict)) :
  get_all_paths_with_purposes adj_list start end_ = PyList found →
  ∀ p acc, (p, acc) ∈ found →
    ∃ further,
      p = start :: further
      ∧ further ≠ []
      ∧ walk adj_list start further
      ∧ last p = Some end_
      ∧ NoDup p.
Proof.
  intros Hret p acc Hin.
  destruct (results_recorded _ _ _ _ _ _ Hret Hin) as (Hne & further & -> & Hw & Hl & Hd).
  exists further. split; [done|]. split.
  - intros ->. simpl in Hl. congruence.
  - split; [by eapply covered_walk_walk|done].
Qed.

Lemma returned_paths_are_simple_witness :
  let adj_list : adjacency :=
    <[ "A" := [("C", [("p", ["x"])]); ("B", [("p", ["y"])])] ]>
      {[ "B" := [("C", [("q", ["w"])])] ]} in
  let found := [(["A"; "C"], [("p", ["x"; "y"])]);
                (["A"; "B"; "C"], [("p", ["x"; "y"]); ("q", ["w"])])] in
  get_all_paths_with_purposes adj_list "A" "C" = PyList found
  ∧ ∃ further, ["A"; "B"; "C"] = "A" :: further ∧ walk adj_list "A" further.
Proof.
  intros adj_list found.
  assert (get_all_paths_with_purposes adj_list "A" "C" = PyList found) as Hret
    by (by vm_compute).
  split; [exact Hret|].
  destruct (returned_paths_are_simple adj_list "A" "C" found Hret
              ["A"; "B"; "C"] [("p", ["x"; "y"]); ("q", ["w"])])
    as (further & Hp & _ & Hw & _).
  { right. by left. }
  by exists further.
Defined.

(** X6: the accumulated purposes returned with a path hold, among their
    keys, every category of the edges the path was found along: from each
    node of the path to the next there is an edge all of whose categories
    are keys of the result. *)
Theorem returned_purposes_cover_path (adj_list : adjacency) (start end_ : string)
    (found : list (list string * purposes_dict)) :
  get_all_paths_with_purposes adj_list start end_ = PyList found →
  ∀ p acc, (p, acc) ∈ found →
    ∃ further, p = start :: further ∧ covered_walk adj_list acc.*1 start further.
Proof.
  intros Hret p acc Hin.
  destruct (results_recorded _ _ _ _ _ _ Hret Hin) as (_ & further & -> & Hw & _).
  by exists further.
Qed.

Lemma returned_purposes_cover_path_witness :
  let adj_list : adjacency :=
    {[ "A" := [("B", [("p1", ["x"])]); ("C", [("p2", ["y"])])] ]} in
  let found := [(["A"; "C"], [("p1", ["x"]); ("p2", ["y"])])] in
  get_all_paths_with_purposes adj_list "A" "C" = PyList found
  ∧ ∃ further,
      ["A"; "C"] = "A" :: further
      ∧ covered_walk adj_list ["p1"; "p2"] "A" further.
Proof.
  intros adj_list found.
  assert (get_all_paths_with_purposes adj_list "A" "C" = PyList found) as Hret
    by (by vm_compute).
  split; [exact Hret|].
  apply (returned_purposes_cover_path adj_list "A" "C" found Hret
           ["A"; "C"] [("p1", ["x"]); ("p2", ["y"])]).
  by left.
Defined.

(** X7: for distinct endpoints the enumerator returns the empty list when
    the start node has no entry in the adjacency list, and when the end node
    is the target of no edge. *)
Theorem no_paths_without_edges (adj_list : adjacency) (start end_ : string) :
  start ≠ end_ →
  adj_list !! start = None ∨ end_ ∉ targets_of adj_list →
  get_all_paths_with_purposes adj_list start end_ = PyList [].
Proof.
  intros Hne Hno.
  destruct (get_all_paths_list adj_list start end_ Hne) as [found Hret].
  rewrite Hret. f_equal.
  destruct found as [|[p acc] found]; [done|]. exfalso.
  destruct (results_recorded _ _ _ _ p acc Hret) as (_ & further & -> & Hw & Hl & _);
    [by left|].
  apply covered_walk_walk in Hw.
  destruct further as [|next_node further]; [simpl in Hl; congruence|].
  destruct Hno as [Hstart|Hend].
  - destruct Hw as [[prp Hin] _]. unfold adj_get in Hin. rewrite Hstart in Hin.
    by apply not_elem_of_nil in Hin.
  - apply Hend. by eapply (walk_last_target adj_list (next_node :: further) start).
Qed.

Lemma no_paths_without_edges_witness :
  let adj_list : adjacency := {[ "A" := [("B", [("p1", ["x"])])] ]} in
  "B" ≠ "A" ∧ get_all_paths_with_purposes adj_list "B" "A" = PyList [].
Proof.
  intros adj_list.
  assert ("B" ≠ "A") as Hne by done.
  split; [exact Hne|].
  apply (no_paths_without_edges adj_list "B" "A" Hne). left. by vm_compute.
Defined.

(** ** Completeness of the search *)

Lemma last_elem_of {A : Type} (l : list A) (x : A) : last l = Some x → x ∈ l.
Proof.
  intros (l' & ->)%last_Some. apply elem_of_app. right. by left.
Qed.

Section Complete.
Variable adj_list : adjacency.
Variable end_ : string.

Lemma visit_complete (fuel : nat) (path : list string) (start : string)
    (next_node : string) (prp : purposes_dict) (rest : list string) :
  (∀ st st',
     dfs fuel adj_list next_node end_ (path ++ [start]) st = Some st' →
     ∃ snap, ((path ++ [start]) ++ next_node :: rest, snap) ∈ all_paths st') →
  NoDup (path ++ [start]) → start ≠ end_ →
  next_node ∉ path ++ [start] →
  ∀ edges st st',
    edges ⊆ adj_get adj_list start →
    visit (λ n s, dfs fuel adj_list n end_ (path ++ [start]) s)
      (path ++ [start]) edges st = Some st' →
    (next_node, prp) ∈ edges →
    ∃ snap, ((path ++ [start]) ++ next_node :: rest, snap) ∈ all_paths st'.
Proof.
  intros IHdfs Hnd Hne Hfresh.
  induction edges as [|[n0 p0] edges IH]; intros st st' Hsub Hrun Hin.
  - by apply not_elem_of_nil in Hin.
  - assert (edges ⊆ adj_get adj_list start) as Hsub'.
    { intros e He. apply Hsub. by right. }
    simpl in Hrun. destruct (decide (n0 ∈ path ++ [start])) as [Hseen|Hnew].
    + apply elem_of_cons in Hin as [[= -> ->]|Hin]; [done|]. by eapply IH.
    + destruct (dfs fuel adj_list n0 end_ (path ++ [start]) (accumulate p0 st))
        as [st1|] eqn:Hcall; [|done].
      apply elem_of_cons in Hin as [[= <- <-]|Hin]; [|by eapply IH].
      destruct (IHdfs _ _ Hcall) as [snap Hsnap]. exists snap.
      eapply (visit_extends adj_list end_ fuel path start) in Hrun
        as [_ (new & -> & _)]; [|by intros n s s'; apply dfs_extends|done..].
      apply elem_of_app. by left.
Qed.

Lemma dfs_complete (fuel : nat) :
  ∀ start path st st' further,
    dfs fuel adj_list start end_ path st = Some st' →
    walk adj_list start further →
    NoDup (path ++ start :: further) →
    last (start :: further) = Some end_ →
    ∃ snap, (path ++ start :: further, snap) ∈ all_paths st'.
Proof.
  induction fuel as [|fuel IH]; intros start path st st' further Hrun Hw Hnd Hl;
    [done|].
  assert (NoDup (path ++ [start])) as Hnd'.
  { change (start :: further) with ([start] ++ further) in Hnd.
    rewrite app_assoc in Hnd. by apply NoDup_app in Hnd as [? _]. }
  simpl in Hrun. destruct (decide (start = end_)) as [->|Hne].
  - injection Hrun as <-. destruct further as [|n further].
    + exists (purposes_accumulated st). simpl. apply elem_of_app. right. by left.
    + exfalso. change (last (n :: further) = Some end_) in Hl.
      apply last_elem_of in Hl.
      apply NoDup_app in Hnd as (_ & _ & Hnd). apply NoDup_cons in Hnd as [Hnd _].
      done.
  - destruct further as [|next_node rest]; [simpl in Hl; congruence|].
    destruct Hw as [[prp Hin] Hw].
    assert (path ++ start :: next_node :: rest
            = (path ++ [start]) ++ next_node :: rest) as Heq
      by by rewrite <- app_assoc.
    rewrite Heq in *.
    eapply (visit_complete fuel path start next_node prp rest);
      [|done|done| | |exact Hrun|exact Hin]; [| |done].
    + intros s s' Hcall. by eapply IH.
    + intros Hseen. apply NoDup_app in Hnd as (_ & Hnd & _).
      apply (Hnd next_node Hseen). by left.
Qed.
End Complete.

Lemma simple_walk_found (adj_list : adjacency)
    (start end_ : string) (found : list (list string * purposes_dict))
    (further : list string) :
  get_all_paths_with_purposes adj_list start end_ = PyList found →
  walk adj_list start further →
  NoDup (start :: further) →
  last (start :: further) = Some end_ →
  ∃ acc, (start :: further, acc) ∈ found.
Proof.
  intros (Hne & st & Hrun & ->)%get_all_paths_PyList Hw Hnd Hl.
  destruct (dfs_complete adj_list end_ _ start [] empty_store st further Hrun Hw Hnd Hl)
    as [snap Hsnap].
  exists (resolve (heap st) snap). unfold results.
  apply list_elem_of_fmap. by exists (start :: further, snap).
Qed.

(** X8: the enumerator misses no path: every sequence of distinct nodes
    that leads from the start node to the end node along edges of the
    adjacency list is the path of some returned result. *)
Theorem every_simple_walk_is_returned (adj_list : adjacency) (start end_ : string)
    (found : list (list string * purposes_dict)) (further : list string) :
  get_all_paths_with_purposes adj_list start end_ = PyList found →
  walk adj_list start further →
  NoDup (start :: further) →
  last (start :: further) = Some end_ →
  ∃ acc, (start :: further, acc) ∈ found.
Proof.
  apply simple_walk_found.
Qed.

Lemma every_simple_walk_is_returned_witness :
  let adj_list : adjacency :=
    <[ "A" := [("C", [("p", ["x"])]); ("B", [("p", ["y"])])] ]>
      {[ "B" := [("C", [("q", ["w"])])] ]} in
  let found := [(["A"; "C"], [("p", ["x"; "y"])]);
                (["A"; "B"; "C"], [("p", ["x"; "y"]); ("q", ["w"])])] in
  get_all_paths_with_purposes adj_list "A" "C" = PyList found
  ∧ walk adj_list "A" ["B"; "C"]
  ∧ NoDup ["A"; "B"; "C"]
  ∧ ∃ acc, (["A"; "B"; "C"], acc) ∈ found.
Proof.
  intros adj_list found.
  assert (get_all_paths_with_purposes adj_list "A" "C" = PyList found) as Hret
    by (by vm_compute).
  assert (walk adj_list "A" ["B"; "C"]) as Hw.
  { simpl. split; [exists [("p", ["y"])]; right; by left|].
    split; [exists [("q", ["w"])]; by left|done]. }
  assert (NoDup ["A"; "B"; "C"]) as Hnd
    by (apply (bool_decide_unpack _); by vm_compute).
  do 3 (split; [done|]).
  exact (every_simple_walk_is_returned adj_list "A" "C" found ["B"; "C"]
           Hret Hw Hnd eq_refl).
Defined.

(** ** The shared accumulator *)

(** A relation between stores that holds across the two updates of the
    search holds across the search. *)
Lemma dfs_steps (R : relation store) (adj_list : adjacency) (end_ : string) :
  (∀ st, R st st) →
  (∀ st1 st2 st3, R st1 st2 → R st2 st3 → R st1 st3) →
  (∀ st entry, R st (extend_category st entry)) →
  (∀ st p, R st (record_path p st)) →
  ∀ fuel start path st st',
    dfs fuel adj_list start end_ path st = Some st' → R st st'.
Proof.
  intros Hrefl Htrans Hext Hrec.
  assert (∀ prp st, R st (accumulate prp st)) as Hacc.
  { unfold accumulate. induction prp as [|e prp IH]; intros st; simpl; [done|].
    eapply Htrans; [apply Hext|apply IH]. }
  induction fuel as [|fuel IH]; intros start path st st' Hrun; [done|].
  simpl in Hrun. destruct (decide (start = end_)).
  - injection Hrun as <-. apply Hrec.
  - revert st st' Hrun.
    induction (adj_get adj_list start) as [|[next_node prp] edges IHe];
      intros st st' Hrun; simpl in Hrun.
    + injection Hrun as <-. apply Hrefl.
    + destruct (decide (next_node ∈ path ++ [start])); [by apply IHe|].
      destruct (dfs fuel adj_list next_node end_ (path ++ [start]) (accumulate prp st))
        as [st1|] eqn:Hcall; [|done].
      eapply Htrans; [apply Hacc|]. eapply Htrans; [by eapply IH|by apply IHe].
Qed.

Lemma extend_category_NoDup (st : store) (entry : string * list string) :
  NoDup (purposes_accumulated st).*1 →
  NoDup (purposes_accumulated (extend_category st entry)).*1.
Proof.
  destruct entry as [category items]. unfold extend_category.
  destruct (dict_lookup category (purposes_accumulated st)) eqn:Hl; simpl; [done|].
  intros Hnd. rewrite fmap_app. apply NoDup_app. split; [done|]. split.
  - intros k Hk ->%list_elem_of_singleton. by apply dict_lookup_None in Hl.
  - apply NoDup_singleton.
Qed.

Lemma dfs_NoDup_keys (adj_list : adjacency) (end_ : string) (fuel : nat)
    (start : string) (path : list string) (st st' : store) :
  dfs fuel adj_list start end_ path st = Some st' →
  NoDup (purposes_accumulated st).*1 → NoDup (purposes_accumulated st').*1.
Proof.
  apply (dfs_steps (λ s s', NoDup (purposes_accumulated s).*1 →
                            NoDup (purposes_accumulated s').*1)).
  - done.
  - intros s1 s2 s3 H12 H23 H1. by apply H23, H12.
  - intros s e. apply extend_category_NoDup.
  - done.
Qed.

Lemma prefix_NoDup_keys {V : Type} (d1 d2 : pydict V) :
  d1 `prefix_of` d2 → NoDup d2.*1 → NoDup d1.*1.
Proof. intros [d ->]. rewrite fmap_app. by intros [? _]%NoDup_app. Qed.

(** X9: the results of one call share one accumulator: the accumulated
    purposes of each result are, keys and values, an initial part of those
    of every later result in the returned list, and no result holds a
    category twice. *)
Theorem results_share_accumulator (adj_list : adjacency) (start end_ : string)
    (found : list (list string * purposes_dict)) :
  get_all_paths_with_purposes adj_list start end_ = PyList found →
  StronglySorted (λ r1 r2 : list string * purposes_dict, r1.2 `prefix_of` r2.2) found
  ∧ Forall (λ r : list string * purposes_dict, NoDup r.2.*1) found.
Proof.
  intros (Hne & st & Hrun & ->)%get_all_paths_PyList.
  pose proof (dfs_NoDup_keys _ _ _ _ _ _ _ Hrun (NoDup_nil_2)) as Hkeys.
  apply dfs_extends in Hrun as [_ (new & Hall & Hnew & Hsorted)];
    [|apply NoDup_singleton].
  simpl in Hall. unfold results. rewrite Hall. split.
  - eapply StronglySorted_fmap; [|exact Hsorted].
    intros e1 e2. simpl. apply resolve_prefix.
  - apply Forall_fmap. eapply Forall_impl; [exact Hnew|].
    intros e (_ & _ & _ & _ & _ & _ & Hp). simpl. rewrite resolve_keys.
    by eapply prefix_NoDup_keys.
Qed.

Lemma results_share_accumulator_witness :
  let adj_list : adjacency :=
    <[ "A" := [("C", [("p", ["x"])]); ("B", [("p", ["y"])])] ]>
      {[ "B" := [("C", [("q", ["w"])])] ]} in
  let found := [(["A"; "C"], [("p", ["x"; "y"])]);
                (["A"; "B"; "C"], [("p", ["x"; "y"]); ("q", ["w"])])] in
  get_all_paths_with_purposes adj_list "A" "C" = PyList found
  ∧ StronglySorted (λ r1 r2 : list string * purposes_dict, r1.2 `prefix_of` r2.2) found.
Proof.
  intros adj_list found.
  assert (get_all_paths_with_purposes adj_list "A" "C" = PyList found) as Hret
    by (by vm_compute).
  split; [exact Hret|].
  exact (proj1 (results_share_accumulator adj_list "A" "C" found Hret)).
Defined.

(** ** Independence of the order in which the sets are run through *)

(** *** Which loops raise *)

Lemma for_each_raise_iff {A S : Type} (body : A → S → result S) (xs : list A) :
  (∀ x s s', is_raise (body x s) → is_raise (body x s')) →
  ∀ s, is_raise (for_each body xs s) ↔ ∃ x, x ∈ xs ∧ ∀ s', is_raise (body x s').
Proof.
  intros Hind s. split.
  - revert s. induction xs as [|x xs IH]; intros s Hr; [done|].
    rewrite for_each_cons in Hr. destruct (body x s) as [s1|e] eqn:Hx.
    + destruct (IH s1 Hr) as (y & Hy & Hraise). exists y. split; [by right|done].
    + exists x. split; [by left|]. intros s'. apply (Hind x s). by rewrite Hx.
  - intros (x & Hin & Hx). by apply (for_each_raises body xs x).
Qed.

Lemma scan_link_raise_indep (root leaf : string) (inh inh' : purposes_dict)
    (l : link) (rows rows' : list row) :
  is_raise (scan_link root leaf inh l rows) →
  is_raise (scan_link root leaf inh' l rows').
Proof.
  destruct l as [|[[src|] [tgt|] prp txt]]; unfold scan_link; simpl; try done.
  - destruct (decide (src = root)); [|done]. simpl. by destruct (decide (tgt = leaf)).
  - by destruct (decide (src = root)).
Qed.

Lemma scan_path_raise_indep (links : list link) (root leaf : string)
    (found found' : list string * purposes_dict) (rows rows' : list row) :
  is_raise (scan_path links root leaf found rows) →
  is_raise (scan_path links root leaf found' rows').
Proof.
  unfold scan_path. rewrite !for_each_raise_iff
    by (intros l s s'; apply scan_link_raise_indep).
  intros (l & Hin & Hl). exists l. split; [done|]. intros s'.
  eapply scan_link_raise_indep, (Hl []).
Qed.

Lemma scan_pair_raise_indep (links : list link) (adj_list : adjacency)
    (root leaf : string) (rows rows' : list row) :
  is_raise (scan_pair links adj_list root leaf rows) →
  is_raise (scan_pair links adj_list root leaf rows').
Proof.
  unfold scan_pair.
  destruct (get_all_paths_with_purposes adj_list root leaf) as [|paths]; [done|].
  rewrite !for_each_raise_iff by (intros x s s'; apply scan_path_raise_indep).
  done.
Qed.

Lemma leaf_loop_raise_indep (links : list link) (adj_list : adjacency)
    (leaf_order : list string) (root : string) (rows rows' : list row) :
  is_raise (for_each (scan_pair links adj_list root) leaf_order rows) →
  is_raise (for_each (scan_pair links adj_list root) leaf_order rows').
Proof.
  rewrite !for_each_raise_iff by (intros x s s'; apply scan_pair_raise_indep).
  done.
Qed.

(** Whether the two nested loops raise depends on the roots and the leaves
    run through, not on their order. *)
Lemma loops_raise_iff (links : list link) (adj_list : adjacency)
    (root_order leaf_order : list string) (rows : list row) :
  is_raise (for_each (λ root, for_each (scan_pair links adj_list root) leaf_order)
              root_order rows)
  ↔ ∃ root leaf, root ∈ root_order ∧ leaf ∈ leaf_order
                 ∧ ∀ rows', is_raise (scan_pair links adj_list root leaf rows').
Proof.
  rewrite for_each_raise_iff by (intros x s s'; apply leaf_loop_raise_indep).
  split.
  - intros (root & Hroot & Hr). specialize (Hr []).
    apply for_each_raise_iff in Hr as (leaf & Hleaf & Hl);
      [|intros x s s'; apply scan_pair_raise_indep].
    by exists root, leaf.
  - intros (root & leaf & Hroot & Hleaf & Hl). exists root. split; [done|].
    intros rows'. apply for_each_raise_iff;
      [intros x s s'; apply scan_pair_raise_indep|]. by exists leaf.
Qed.

(** *** Stable sorting *)

Lemma string_compare_refl (s : string) : String.compare s s = Eq.
Proof.
  induction s as [|a s IH]; simpl; [done|].
  unfold Ascii.compare. by rewrite N.compare_refl.
Qed.

Lemma same_key_leb (r1 r2 : row) :
  data_type r1 = data_type r2 → collector r1 = collector r2 → key_leb r1 r2 = true.
Proof.
  intros Hd Hc. unfold key_leb, String.leb.
  by rewrite Hd, Hc, !string_compare_refl.
Qed.

Lemma key_leb_antisym (r1 r2 : row) :
  key_leb r1 r2 = true → key_leb r2 r1 = true →
  data_type r1 = data_type r2 ∧ collector r1 = collector r2.
Proof.
  unfold key_leb. rewrite (String.compare_antisym (data_type r2) (data_type r1)).
  destruct (String.compare (data_type r1) (data_type r2)) eqn:Hd; simpl; [|done|done].
  apply String.compare_eq_iff in Hd. intros H12 H21. split; [done|].
  by apply String.leb_antisym.
Qed.

(** Sorting keeps the rows of each key in their order. *)
Lemma filter_insert_row (k : string * string) (r : row) (df : table) :
  filter (has_key k) (insert_row r df) = filter (has_key k) (r :: df).
Proof.
  unfold table in *. induction df as [|r' df IH]; simpl; [done|].
  destruct (key_leb r r') eqn:Hle; [done|].
  rewrite (filter_cons _ r'), IH, !(filter_cons _ r), (filter_cons _ r').
  destruct (decide (has_key k r)) as [[Hd Hc]|]; [|done].
  destruct (decide (has_key k r')) as [[Hd' Hc']|]; [|done].
  rewrite same_key_leb in Hle; [done|congruence|congruence].
Qed.

Lemma filter_sort_values (k : string * string) (df : table) :
  filter (has_key k) (sort_values df) = filter (has_key k) df.
Proof.
  unfold table in *. induction df as [|r df IH]; [done|].
  change (sort_values (r :: df)) with (insert_row r (sort_values df)).
  by rewrite filter_insert_row, !filter_cons, IH.
Qed.

Lemma filter_own_key (r : row) (df : table) :
  filter (has_key (data_type r, collector r)) (r :: df)
  = r :: filter (has_key (data_type r, collector r)) df.
Proof. rewrite filter_cons. by rewrite decide_True. Qed.

(** Two sorted tables with the same rows under each key, in the same order,
    are the same table. *)
Lemma sorted_tables_equal (df1 : table) :
  ∀ df2,
    StronglySorted key_le df1 → StronglySorted key_le df2 →
    (∀ k, filter (has_key k) df1 = filter (has_key k) df2) →
    df1 = df2.
Proof.
  induction df1 as [|a df1 IH]; intros [|b df2] Hs1 Hs2 Hf.
  - done.
  - specialize (Hf (data_type b, collector b)). by rewrite filter_own_key in Hf.
  - specialize (Hf (data_type a, collector a)). by rewrite filter_own_key in Hf.
  - apply StronglySorted_inv in Hs1 as [Hs1 Ha], Hs2 as [Hs2 Hb].
    assert (data_type a = data_type b ∧ collector a = collector b) as [Hd Hc].
    { destruct (decide (has_key (data_type a, collector a) b)) as [[? ?]|Hnb]; [done|].
      pose proof (Hf (data_type a, collector a)) as Hfa.
      rewrite filter_own_key, (filter_cons _ b), decide_False in Hfa by done.
      assert (a ∈ df2) as Ha2.
      { eapply (list_elem_of_filter (has_key (data_type a, collector a))).
        rewrite <- Hfa. by left. }
      pose proof (Hf (data_type b, collector b)) as Hfb.
      rewrite filter_own_key, (filter_cons _ a), decide_False in Hfb.
      2:{ intros [? ?]. apply Hnb. by split. }
      assert (b ∈ df1) as Hb1.
      { eapply (list_elem_of_filter (has_key (data_type b, collector b))).
        rewrite Hfb. by left. }
      eapply Forall_forall in Ha; [|exact Hb1].
      eapply Forall_forall in Hb; [|exact Ha2].
      by apply key_leb_antisym. }
    pose proof (Hf (data_type a, collector a)) as Hfa.
    rewrite filter_own_key, Hd, Hc, filter_own_key in Hfa.
    injection Hfa as -> Hfa. f_equal. apply IH; [done|done|].
    intros k. specialize (Hf k). rewrite (filter_cons _ b df1), (filter_cons _ b df2) in Hf.
    by destruct (decide (has_key k b)); [injection Hf|].
Qed.

Lemma sort_values_stable (df1 df2 : table) :
  (∀ k, filter (has_key k) df1 = filter (has_key k) df2) →
  sort_values df1 = sort_values df2.
Proof.
  intros Hf. apply sorted_tables_equal; [apply sort_values_sorted..|].
  intros k. by rewrite !filter_sort_values.
Qed.

Lemma finish_unfold (rows : list row) :
  finish rows = drop_duplicates (sort_values rows).
Proof. by destruct rows. Qed.

(** *** The rows of the two loops, key by key *)

Lemma loops_value (links : list link) (adj_list : adjacency)
    (root_order leaf_order : list string) (rows : list row) :
  for_each (λ root, for_each (scan_pair links adj_list root) leaf_order)
    root_order [] = Ok rows →
  rows = (root ← root_order; leaf ← leaf_order;
          pair_rows links root leaf (paths_of adj_list root leaf)).
Proof.
  intros Hrun.
  apply (for_each_appends _
           (λ root, leaf ← leaf_order;
                    pair_rows links root leaf (paths_of adj_list root leaf)))
    in Hrun; [done|].
  intros root s s' _. apply for_each_appends.
  intros leaf t t' _. apply scan_pair_appends.
Qed.

Lemma pair_rows_key (links : list link) (root leaf : string)
    (paths : list (list string * purposes_dict)) (r : row) :
  r ∈ pair_rows links root leaf paths → data_type r = leaf ∧ collector r = root.
Proof.
  unfold pair_rows. intros (found & Hr & _)%list_elem_of_bind.
  by apply list_elem_of_fmap in Hr as (m & -> & _).
Qed.

Lemma filter_none {A : Type} (P : A → Prop) `{∀ x, Decision (P x)} (l : list A) :
  (∀ x, x ∈ l → ¬ P x) → filter P l = [].
Proof.
  induction l as [|x l IH]; intros Hno; [done|].
  rewrite filter_cons, decide_False by (apply Hno; by left).
  apply IH. intros y Hy. apply Hno. by right.
Qed.

Lemma filter_all {A : Type} (P : A → Prop) `{∀ x, Decision (P x)} (l : list A) :
  (∀ x, x ∈ l → P x) → filter P l = l.
Proof.
  induction l as [|x l IH]; intros Hall; [done|].
  rewrite filter_cons, decide_True by (apply Hall; by left).
  f_equal. apply IH. intros y Hy. apply Hall. by right.
Qed.

(** Of a concatenation of blocks, one for each element of a list without
    repetition, a filter that only the block of [x0] can pass keeps what it
    keeps of that block. *)
Lemma filter_bind_unique {A B : Type} `{EqDecision A} (P : B → Prop)
    `{∀ y, Decision (P y)} (f : A → list B) (x0 : A) (xs : list A) :
  NoDup xs →
  (∀ x y, x ∈ xs → y ∈ f x → P y → x = x0) →
  filter P (xs ≫= f) = if decide (x0 ∈ xs) then filter P (f x0) else [].
Proof.
  induction 1 as [|x xs Hx Hnd IH]; intros Honly.
  - by rewrite decide_False by apply not_elem_of_nil.
  - rewrite bind_cons, filter_app, IH by (intros ? ? ?; apply Honly; by right).
    destruct (decide (x = x0)) as [->|Hne].
    + rewrite (decide_True (P := x0 ∈ x0 :: xs)) by by left.
      rewrite (decide_False (P := x0 ∈ xs)) by done.
      by rewrite app_nil_r.
    + rewrite (filter_none P (f x)).
      2:{ intros y Hy HP. apply Hne. eapply Honly; [by left|done..]. }
      simpl. destruct (decide (x0 ∈ xs)) as [Hin|Hout].
      * by rewrite (decide_True (P := x0 ∈ x :: xs)) by by right.
      * rewrite (decide_False (P := x0 ∈ x :: xs)); [done|].
        by intros [?|?]%elem_of_cons.
Qed.

Lemma filter_loops (links : list link) (adj_list : adjacency)
    (root_order leaf_order : list string) (k : string * string) :
  NoDup root_order → NoDup leaf_order →
  filter (has_key k)
    (root ← root_order; leaf ← leaf_order;
     pair_rows links root leaf (paths_of adj_list root leaf))
  = if decide (k.2 ∈ root_order) then
      if decide (k.1 ∈ leaf_order)
      then pair_rows links k.2 k.1 (paths_of adj_list k.2 k.1)
      else []
    else [].
Proof.
  intros Hr Hl.
  rewrite (filter_bind_unique (has_key k) _ k.2 root_order Hr).
  2:{ intros root r _ (leaf & Hin & _)%list_elem_of_bind [_ Hc].
      apply pair_rows_key in Hin as [_ <-]. done. }
  destruct (decide (k.2 ∈ root_order)); [|done].
  rewrite (filter_bind_unique (has_key k) _ k.1 leaf_order Hl).
  2:{ intros leaf r _ Hin [Hd _]. apply pair_rows_key in Hin as [<- _]. done. }
  destruct (decide (k.1 ∈ leaf_order)); [|done].
  apply filter_all. intros r Hin. apply pair_rows_key in Hin as [? ?]. by split.
Qed.

Lemma set_iter_NoDup `{SetIter} (X : gset string) : NoDup (set_iter X).
Proof. rewrite set_iter_perm. apply NoDup_elements. Qed.

(** X10: the table does not depend on the order in which the interpreter
    runs through the set of roots and the set of leaves: any two orders give
    the same table, for every document. *)
Theorem table_independent_of_set_order (I1 I2 : SetIter) (data : document) :
  @process_yaml_to_organized_data I1 data = @process_yaml_to_organized_data I2 data.
Proof.
  destruct data as [| |[[|links]|]]; try done.
  unfold process_yaml_to_organized_data, process_body, collect_rows.
  destruct (build_adjacency_list links) as [adj_list|]; [|done].
  destruct (find_leaf_nodes links) as [leaves|]; [|done].
  destruct (find_root_nodes links) as [roots|]; [|done].
  unfold mbind, result_bind.
  assert ((∃ root leaf, root ∈ @set_iter I1 roots ∧ leaf ∈ @set_iter I1 leaves
             ∧ ∀ rows', is_raise (scan_pair links adj_list root leaf rows'))
          ↔ (∃ root leaf, root ∈ @set_iter I2 roots ∧ leaf ∈ @set_iter I2 leaves
             ∧ ∀ rows', is_raise (scan_pair links adj_list root leaf rows')))
    as Hsame.
  { split; intros (root & leaf & Hroot & Hleaf & Hraise); exists root, leaf;
      (split; [|split; [|done]]);
      apply elem_of_set_iter; by apply elem_of_set_iter in Hroot, Hleaf. }
  rewrite <- (loops_raise_iff links adj_list (@set_iter I1 roots) (@set_iter I1 leaves) []),
          <- (loops_raise_iff links adj_list (@set_iter I2 roots) (@set_iter I2 leaves) [])
    in Hsame.
  destruct (for_each _ (@set_iter I1 roots) _) as [rows1|e1] eqn:H1;
    destruct (for_each _ (@set_iter I2 roots) _) as [rows2|e2] eqn:H2;
    rewrite ?H1, ?H2 in Hsame; simpl in Hsame.
  - rewrite !finish_unfold. f_equal. apply sort_values_stable. intros k.
    apply loops_value in H1, H2. subst rows1 rows2.
    rewrite !filter_loops by apply set_iter_NoDup.
    destruct (decide (k.2 ∈ @set_iter I1 roots)) as [Hin|Hout].
    + rewrite (decide_True (P := k.2 ∈ @set_iter I2 roots))
        by (apply elem_of_set_iter; by apply elem_of_set_iter in Hin).
      destruct (decide (k.1 ∈ @set_iter I1 leaves)) as [Hin'|Hout'].
      * by rewrite (decide_True (P := k.1 ∈ @set_iter I2 leaves))
          by (apply elem_of_set_iter; by apply elem_of_set_iter in Hin').
      * by rewrite (decide_False (P := k.1 ∈ @set_iter I2 leaves))
          by (intros ?%elem_of_set_iter; apply Hout'; by apply elem_of_set_iter).
    + by rewrite (decide_False (P := k.2 ∈ @set_iter I2 roots))
        by (intros ?%elem_of_set_iter; apply Hout; by apply elem_of_set_iter).
  - exfalso. by apply Hsame.
  - exfalso. by apply Hsame.
  - by destruct e1, e2.
Qed.

(** ** Which pairs reach the table *)

Lemma adjacency_edge_nonempty (ms : list edge_record) (adj_list : adjacency)
    (node next_node : string) (prp : purposes_dict) :
  build_adjacency_list (Mapping <$> ms) = Ok adj_list →
  (next_node, prp) ∈ adj_get adj_list node →
  node ≠ "" ∧ next_node ≠ "".
Proof.
  intros Hadj Hin.
  destruct (build_adjacency_list_mappings ms) as (adj' & Hrun & Hlook).
  rewrite Hrun in Hadj. injection Hadj as ->.
  unfold adj_get in Hin. rewrite Hlook in Hin.
  assert ((next_node, prp) ∈ out_edges ms node) as Hout.
  { destruct (out_edges ms node); [by apply not_elem_of_nil in Hin|done]. }
  by apply elem_of_out_edges in Hout as (m & _ & _ & ? & ? & _).
Qed.

Lemma adjacency_has_direct_edge (ms : list edge_record) (adj_list : adjacency)
    (m : edge_record) (root leaf : string) :
  build_adjacency_list (Mapping <$> ms) = Ok adj_list →
  m ∈ ms → source m = Some root → target m = Some leaf →
  root ≠ "" → leaf ≠ "" →
  (leaf, default [] (purposes m)) ∈ adj_get adj_list root.
Proof.
  intros Hadj Hin Hs Ht Hr Hl.
  destruct (build_adjacency_list_mappings ms) as (adj' & Hrun & Hlook).
  rewrite Hrun in Hadj. injection Hadj as ->.
  assert ((leaf, default [] (purposes m)) ∈ out_edges ms root) as Hout.
  { apply elem_of_out_edges. exists m. by rewrite Hs, Ht. }
  unfold adj_get. rewrite Hlook.
  destruct (out_edges ms root); [by apply not_elem_of_nil in Hout|done].
Qed.

Section Pairs.
Context `{SetIter}.

Lemma collected_rows_elem (links : list link) (rows : list row) :
  collect_rows links = Ok rows →
  ∃ adj_list roots leaves,
    build_adjacency_list links = Ok adj_list
    ∧ find_root_nodes links = Ok roots
    ∧ find_leaf_nodes links = Ok leaves
    ∧ ∀ r, (r ∈ rows ↔
       ∃ root leaf found m,
         root ∈ roots ∧ leaf ∈ leaves
         ∧ found ∈ paths_of adj_list root leaf
         ∧ m ∈ direct_edges links root leaf
         ∧ r = make_row root leaf found.2 m).
Proof.
  intros Hrows.
  destruct (collect_rows_Ok links rows Hrows)
    as (adj_list & roots & leaves & Hadj & Hroots & Hleaves & Hrun).
  exists adj_list, roots, leaves. do 3 (split; [done|]). intros r.
  apply loops_value in Hrun. rewrite Hrun. unfold pair_rows. split.
  - intros (root & Hr & Hroot)%list_elem_of_bind.
    apply list_elem_of_bind in Hr as (leaf & Hr & Hleaf).
    apply list_elem_of_bind in Hr as (found & Hr & Hfound).
    apply list_elem_of_fmap in Hr as (m & -> & Hm).
    apply elem_of_set_iter in Hroot, Hleaf.
    by exists root, leaf, found, m.
  - intros (root & leaf & found & m & Hroot & Hleaf & Hfound & Hm & ->).
    apply list_elem_of_bind. exists root. split; [|by apply elem_of_set_iter].
    apply list_elem_of_bind. exists leaf. split; [|by apply elem_of_set_iter].
    apply list_elem_of_bind. exists found. split; [|done].
    apply list_elem_of_fmap. by exists m.
Qed.

(** X11: when the scan of the edge list completes, the table has a row with
    a given collector and data type exactly when the collector is a root,
    the data type is a leaf, both are non-empty, and some record links them
    directly; a pair joined only by longer paths never reaches the table,
    and a direct edge from a root to a leaf always does. *)
Theorem table_pairs_are_direct_edges (links : list link) (rows : list row)
    (roots leaves : gset string) (root leaf : string) :
  collect_rows links = Ok rows →
  find_root_nodes links = Ok roots →
  find_leaf_nodes links = Ok leaves →
  (∃ r, r ∈ process_yaml_to_organized_data (Dict (Some (LinksList links)))
        ∧ collector r = root ∧ data_type r = leaf)
  ↔ root ∈ roots ∧ leaf ∈ leaves ∧ root ≠ "" ∧ leaf ≠ ""
    ∧ ∃ m, Mapping m ∈ links ∧ source m = Some root ∧ target m = Some leaf.
Proof.
  intros Hrows Hroots Hleaves.
  rewrite (process_collected links rows Hrows).
  destruct (results_are_mappings links roots Hroots) as [ms ->].
  destruct (collected_rows_elem _ _ Hrows)
    as (adj_list & roots' & leaves' & Hadj & Hroots' & Hleaves' & Hmem).
  rewrite Hroots in Hroots'. injection Hroots' as <-.
  rewrite Hleaves in Hleaves'. injection Hleaves' as <-.
  split.
  - intros (r & Hr & Hc & Hd). rewrite elem_of_finish in Hr.
    apply Hmem in Hr as (root' & leaf' & found & m & Hroot & Hleaf & Hfound & Hm & ->).
    simpl in Hc, Hd. subst root' leaf'.
    apply elem_of_direct_edges in Hm as (Hm & Hs & Ht).
    do 2 (split; [done|]).
    unfold paths_of in Hfound.
    destruct (get_all_paths_with_purposes adj_list root leaf) as [|paths] eqn:Hret;
      [by apply not_elem_of_nil in Hfound|].
    destruct found as [p acc].
    destruct (results_recorded _ _ _ _ _ _ Hret Hfound)
      as (Hne & further & -> & Hw & Hl & _).
    apply covered_walk_walk in Hw.
    destruct further as [|next_node further]; [simpl in Hl; congruence|].
    split; [|split; [|by exists m]].
    + destruct Hw as [[prp Hin] _].
      by destruct (adjacency_edge_nonempty ms adj_list _ _ _ Hadj Hin).
    + assert (leaf ∈ targets_of adj_list) as Ht'
        by by eapply (walk_last_target adj_list (next_node :: further) root).
      apply elem_of_targets_of in Ht' as (src & edges & Hsrc & Hin).
      apply list_elem_of_fmap in Hin as ([tgt prp] & -> & Hin).
      assert ((tgt, prp) ∈ adj_get adj_list src) as Hin'
        by (unfold adj_get; by rewrite Hsrc).
      by destruct (adjacency_edge_nonempty ms adj_list _ _ _ Hadj Hin').
  - intros (Hroot & Hleaf & Hr & Hl & m & Hm & Hs & Ht).
    assert (root ≠ leaf) as Hne by by eapply roots_leaves_distinct.
    destruct (get_all_paths_list adj_list root leaf Hne) as [paths Hret].
    assert (m ∈ ms) as Hm' by by apply list_elem_of_fmap in Hm as (m' & [= ->] & ?).
    pose proof (adjacency_has_direct_edge ms adj_list m root leaf Hadj Hm' Hs Ht Hr Hl)
      as Hedge.
    destruct (simple_walk_found adj_list root leaf paths [leaf] Hret)
      as [acc Hacc].
    { simpl. split; [by eexists|done]. }
    { apply NoDup_cons. split; [by intros ->%list_elem_of_singleton|apply NoDup_singleton]. }
    { done. }
    exists (make_row root leaf acc m). split; [|done].
    apply elem_of_finish, Hmem. exists root, leaf, ([root; leaf], acc), m.
    do 2 (split; [done|]). split; [unfold paths_of; by rewrite Hret|]. split; [|done].
    by apply elem_of_direct_edges.
Qed.
End Pairs.

Lemma table_pairs_are_direct_edges_witness :
  let edge s t p x :=
    Mapping {| source := Some s; target := Some t;
               purposes := Some [(p, ["v"])]; text := Some [x] |} in
  let links := [edge "R" "M" "p2" "one"; edge "M" "L" "p3" "two";
                edge "R" "L" "p1" "hello"] in
  let rows := [ {| data_type := "L"; collector := "R";
                   purpose := "p2, p3"; text_content := "hello" |};
                {| data_type := "L"; collector := "R";
                   purpose := "p2, p3, p1"; text_content := "hello" |} ] in
  collect_rows links = Ok rows
  ∧ find_root_nodes links = Ok {[ "R" ]}
  ∧ find_leaf_nodes links = Ok {[ "L" ]}
  ∧ ((∃ r, r ∈ process_yaml_to_organized_data (Dict (Some (LinksList links)))
           ∧ collector r = "R" ∧ data_type r = "L")
     ↔ "R" ∈ ({[ "R" ]} : gset string) ∧ "L" ∈ ({[ "L" ]} : gset string)
       ∧ "R" ≠ "" ∧ "L" ≠ ""
       ∧ ∃ m, Mapping m ∈ links ∧ source m = Some "R" ∧ target m = Some "L").
Proof.
  intros edge links rows.
  assert (collect_rows links = Ok rows) as Hrows by (by vm_compute).
  assert (find_root_nodes links = Ok {[ "R" ]}) as Hroots by (by vm_compute).
  assert (find_leaf_nodes links = Ok {[ "L" ]}) as Hleaves by (by vm_compute).
  do 3 (split; [done|]).
  exact (table_pairs_are_direct_edges links rows _ _ "R" "L" Hrows Hroots Hleaves).
Defined.

(** ** The batch driver *)

Section DriverProperties.
Context `{SetIter}.
Variable fs : file_system.

Lemma process_sorted (data : document) :
  StronglySorted key_le (process_yaml_to_organized_data data)
  ∧ NoDup (process_yaml_to_organized_data data).
Proof.
  destruct data as [| |[[|links]|]]; try (split; constructor).
  destruct (collect_rows links) as [rows|e] eqn:Hrows.
  - rewrite (process_collected links rows Hrows).
    split; [apply finish_sorted|apply finish_NoDup].
  - rewrite collect_rows_raises by by rewrite Hrows. split; constructor.
Qed.

Lemma process_file_wrote (app_folder : string) (file : string * file_content)
    (name : string) (df : table) :
  WroteCsv name df ∈ process_file fs app_folder file ↔
  ∃ data,
    file = ("graph-original.yml", Content data)
    ∧ name = csv_name app_folder
    ∧ df = process_yaml_to_organized_data data
    ∧ df ≠ []
    ∧ to_csv fs name df = Answer ().
Proof.
  destruct file as [filename content]. unfold process_file. split.
  - destruct (decide (filename = "graph-original.yml")) as [->|];
      [|by intros ?%not_elem_of_nil].
    destruct content as [|data];
      [by intros [=]%list_elem_of_singleton|].
    destruct (process_yaml_to_organized_data data) as [|r df'] eqn:Hdf;
      [by intros [=]%list_elem_of_singleton|].
    destruct (to_csv fs (csv_name app_folder) (r :: df')) as [[]|] eqn:Hcsv;
      [|by intros [=]%list_elem_of_singleton].
    intros [[= -> ->]|Hin]%elem_of_cons.
    + exists data. by rewrite Hdf.
    + by apply list_elem_of_singleton in Hin.
  - intros (data & [= -> ->] & -> & -> & Hne & Hcsv).
    rewrite decide_True by done.
    destruct (process_yaml_to_organized_data data) as [|r df']; [done|].
    rewrite Hcsv. by left.
Qed.

Lemma process_entry_wrote (entry : string * dir_entry) (name : string) (df : table) :
  WroteCsv name df ∈ (process_entry fs entry).1 ↔
  ∃ files file,
    entry.2 = AppFolder (Answer files) ∧ file ∈ files
    ∧ WroteCsv name df ∈ process_file fs entry.1 file.
Proof.
  destruct entry as [app_folder [|[files|]]]; simpl.
  - split; [by intros ?%not_elem_of_nil|by intros (? & ? & ? & _)].
  - rewrite !elem_of_cons, list_elem_of_bind. split.
    + intros [?|[?|(file & Hin & Hfile)]]; [done..|]. by exists files, file.
    + intros (files' & file & [= <-] & Hfile & Hin). right. right. by exists file.
  - split; [by intros [=]%list_elem_of_singleton|by intros (? & ? & ? & _)].
Qed.

Lemma process_entries_events (entries : list (string * dir_entry)) (e : event) :
  e ∈ (process_entries fs entries).1 →
  ∃ entry, entry ∈ entries ∧ e ∈ (process_entry fs entry).1.
Proof.
  induction entries as [|entry entries IH]; simpl; [by intros ?%not_elem_of_nil|].
  destruct (process_entry fs entry) as [events [[]|]] eqn:Hentry.
  - destruct (process_entries fs entries) as [events' outcome]. simpl in *.
    intros [Hin|Hin]%elem_of_app.
    + exists entry. split; [by left|]. by rewrite Hentry.
    + destruct (IH Hin) as (entry' & ? & ?). exists entry'. split; [by right|done].
  - simpl. intros Hin. exists entry. split; [by left|]. by rewrite Hentry.
Qed.

Lemma process_entries_complete (entries : list (string * dir_entry))
    (entry : string * dir_entry) (e : event) :
  (process_entries fs entries).2 = Answer () →
  entry ∈ entries → e ∈ (process_entry fs entry).1 →
  e ∈ (process_entries fs entries).1.
Proof.
  induction entries as [|entry' entries IH]; simpl; [by intros _ ?%not_elem_of_nil|].
  destruct (process_entry fs entry') as [events [[]|]] eqn:Hentry; [|done].
  destruct (process_entries fs entries) as [events' outcome]. simpl in *.
  intros Hout [->|Hin]%elem_of_cons He; apply elem_of_app.
  - left. by rewrite Hentry in He.
  - right. by apply IH.
Qed.

Lemma process_entries_raises (entries : list (string * dir_entry)) :
  (process_entries fs entries).2 = OSError ↔
  ∃ app_folder, (app_folder, AppFolder OSError) ∈ entries.
Proof.
  induction entries as [|[app_folder kind] entries IH]; simpl.
  - split; [done|]. by intros (? & ?%not_elem_of_nil).
  - destruct kind as [|[files|]]; simpl.
    + destruct (process_entries fs entries) as [events' outcome]. simpl in *.
      rewrite IH. split.
      * intros (app & ?). exists app. by right.
      * intros (app & [[=]|?]%elem_of_cons). by exists app.
    + destruct (process_entries fs entries) as [events' outcome]. simpl in *.
      rewrite IH. split.
      * intros (app & ?). exists app. by right.
      * intros (app & [[=]|?]%elem_of_cons). by exists app.
    + split; [|done]. intros _. exists app_folder. by left.
Qed.

(** X12: every table the batch driver writes is the table of the
    [graph-original.yml] of a folder of the input listing, written under
    the name of that folder with [.csv] appended; it is never empty, and it
    is sorted and free of duplicate rows. *)
Theorem written_tables (name : string) (df : table) :
  WroteCsv name df ∈ (process_all_yaml_files fs).1 →
  ∃ entries app_folder files data,
    input_listing fs = Answer entries
    ∧ (app_folder, AppFolder (Answer files)) ∈ entries
    ∧ ("graph-original.yml", Content data) ∈ files
    ∧ name = csv_name app_folder
    ∧ df = process_yaml_to_organized_data data
    ∧ df ≠ []
    ∧ StronglySorted key_le df
    ∧ NoDup df.
Proof.
  unfold process_all_yaml_files. intros Hin.
  assert (∃ entries, input_listing fs = Answer entries
                     ∧ WroteCsv name df ∈ (process_entries fs entries).1)
    as (entries & Hlist & Hev).
  { destruct (output_exists fs); [|destruct (makedirs fs) as [[]|]];
      simpl in Hin; try by apply not_elem_of_nil in Hin.
    - destruct (input_listing fs) as [entries|]; [|by apply not_elem_of_nil in Hin].
      exists entries. split; [done|].
      by destruct (process_entries fs entries) as [events outcome].
    - destruct (input_listing fs) as [entries|];
        [|by apply list_elem_of_singleton in Hin].
      exists entries. split; [done|].
      destruct (process_entries fs entries) as [events outcome]. simpl in *.
      by apply elem_of_cons in Hin as [?|?]. }
  apply process_entries_events in Hev as ([app_folder kind] & Hentry & Hev).
  apply process_entry_wrote in Hev as (files & file & Hkind & Hfile & Hev).
  apply process_file_wrote in Hev as (data & -> & -> & -> & Hne & _).
  simpl in Hkind. subst kind.
  exists entries, app_folder, files, data. do 5 (split; [done|]).
  split; [done|]. apply process_sorted.
Qed.

Lemma driver_without_exception (entries : list (string * dir_entry)) :
  input_listing fs = Answer entries →
  (process_all_yaml_files fs).2 = Answer () →
  (process_entries fs entries).2 = Answer ()
  ∧ ∀ e, e ∈ (process_entries fs entries).1 → e ∈ (process_all_yaml_files fs).1.
Proof.
  unfold process_all_yaml_files. intros ->.
  destruct (output_exists fs); [|destruct (makedirs fs) as [[]|]; [|done]];
    destruct (process_entries fs entries) as [events outcome]; simpl;
    intros ->; (split; [done|]); intros e He; [done|by right].
Qed.

(** X13: one document does not stop the others: when the driver ends
    without an exception, every folder of the listing whose
    [graph-original.yml] can be read and gives a non-empty table has that
    table written, provided the write itself succeeds, whatever the other
    folders and files hold. *)
Theorem readable_documents_are_written (entries : list (string * dir_entry))
    (app_folder : string) (files : list (string * file_content)) (data : document) :
  (process_all_yaml_files fs).2 = Answer () →
  input_listing fs = Answer entries →
  (app_folder, AppFolder (Answer files)) ∈ entries →
  ("graph-original.yml", Content data) ∈ files →
  process_yaml_to_organized_data data ≠ [] →
  to_csv fs (csv_name app_folder) (process_yaml_to_organized_data data) = Answer () →
  WroteCsv (csv_name app_folder) (process_yaml_to_organized_data data)
    ∈ (process_all_yaml_files fs).1.
Proof.
  intros Hout Hlist Hentry Hfile Hne Hcsv.
  destruct (driver_without_exception entries Hlist Hout) as [Hloop Hsub].
  apply Hsub.
  apply (process_entries_complete entries (app_folder, AppFolder (Answer files)));
    [done..|].
  apply process_entry_wrote. exists files, ("graph-original.yml", Content data).
  do 2 (split; [done|]). apply process_file_wrote. by exists data.
Qed.

(** X14: the driver lets an exception escape exactly when the output folder
    is missing and cannot be made, when the input folder cannot be listed,
    or when a folder of the listing cannot be listed; no file content and no
    failing write makes it raise. *)
Theorem driver_raises_iff :
  (process_all_yaml_files fs).2 = OSError ↔
  (output_exists fs = false ∧ makedirs fs = OSError)
  ∨ input_listing fs = OSError
  ∨ ∃ entries app_folder,
      input_listing fs = Answer entries
      ∧ (app_folder, AppFolder OSError) ∈ entries.
Proof.
  unfold process_all_yaml_files.
  destruct (output_exists fs) eqn:Hex; [|destruct (makedirs fs) as [[]|] eqn:Hmk];
    simpl.
  1,2: destruct (input_listing fs) as [entries|] eqn:Hlist; simpl.
  1,3: pose proof (process_entries_raises entries) as Hiff;
       destruct (process_entries fs entries) as [events outcome]; simpl in *;
       rewrite Hiff; split;
       [intros (app & ?); right; right; by exists entries, app
       |intros [[? ?]|[?|(entries' & app & [= <-] & ?)]]; [done..|by exists app]].
  1,2: split; [intros _; right; by left|done].
  split; [intros _; by left|done].
Qed.
End DriverProperties.

Lemma written_tables_witness :
  let data :=
    Dict (Some (LinksList
      [ Mapping {| source := Some "A"; target := Some "B";
                   purposes := Some [("p1", ["x"])]; text := Some ["hello"] |} ])) in
  let df := [ {| data_type := "B"; collector := "A";
                 purpose := "p1"; text_content := "hello" |} ] in
  let fs :=
    {| output_exists := false;
       makedirs := Answer ();
       input_listing :=
         Answer [("zoom", AppFolder (Answer [("notes.txt", Unreadable);
                                             ("graph-original.yml", Content data)]));
                 ("readme.md", NotFolder);
                 ("broken", AppFolder (Answer [("graph-original.yml", Unreadable)]))];
       to_csv := λ _ _, Answer () |} in
  WroteCsv "zoom.csv" df ∈ (process_all_yaml_files fs).1
  ∧ ∃ entries app_folder files data',
      input_listing fs = Answer entries
      ∧ (app_folder, AppFolder (Answer files)) ∈ entries
      ∧ ("graph-original.yml", Content data') ∈ files
      ∧ "zoom.csv" = csv_name app_folder.
Proof.
  intros data df fs.
  assert (WroteCsv "zoom.csv" df ∈ (process_all_yaml_files fs).1) as Hin.
  { vm_compute. do 3 right. by left. }
  split; [exact Hin|].
  destruct (written_tables fs "zoom.csv" df Hin)
    as (entries & app_folder & files & data' & ? & ? & ? & ? & _).
  by exists entries, app_folder, files, data'.
Defined.

Lemma readable_documents_are_written_witness :
  let data :=
    Dict (Some (LinksList
      [ Mapping {| source := Some "A"; target := Some "B";
                   purposes := Some [("p1", ["x"])]; text := Some ["hello"] |} ])) in
  let files := [("graph-original.yml", Content data)] in
  let entries :=
    [("broken", AppFolder (Answer [("graph-original.yml", Unreadable)]));
     ("empty", AppFolder (Answer [("graph-original.yml", Content NotDict)]));
     ("zoom", AppFolder (Answer files))] in
  let fs :=
    {| output_exists := true;
       makedirs := OSError;
       input_listing := Answer entries;
       to_csv := λ _ _, Answer () |} in
  (process_all_yaml_files fs).2 = Answer ()
  ∧ process_yaml_to_organized_data data ≠ []
  ∧ WroteCsv (csv_name "zoom") (process_yaml_to_organized_data data)
      ∈ (process_all_yaml_files fs).1.
Proof.
  intros data files entries fs.
  assert ((process_all_yaml_files fs).2 = Answer ()) as Hout by (by vm_compute).
  assert (process_yaml_to_organized_data data ≠ []) as Hne by (by vm_compute).
  do 2 (split; [done|]).
  apply (readable_documents_are_written fs entries "zoom" files data);
    [done|done| |by left|done|done].
  do 2 right. by left.
Defined.

(** ** The accumulator against the dictionary it stands for *)

Lemma dict_lookup_elem {V : Type} (k : string) (d : pydict V) (v : V) :
  dict_lookup k d = Some v → (k, v) ∈ d.
Proof.
  induction d as [|[k' v'] d IH]; simpl; [done|].
  destruct (decide (k = k')) as [->|]; [intros [= ->]; by left|].
  intros Hl. right. by apply IH.
Qed.

Lemma dict_extend_fresh (d : purposes_dict) (category : string) (items : list string) :
  category ∉ d.*1 → dict_extend d category items = d ++ [(category, items)].
Proof.
  induction d as [|[k v] d IH]; simpl; [done|].
  rewrite not_elem_of_cons. intros [Hne Hnot].
  rewrite decide_False by done. by rewrite IH.
Qed.

Lemma resolve_ext (h h' : list (list string)) (d : pydict nat) :
  (∀ k a, (k, a) ∈ d → h' !! a = h !! a) → resolve h' d = resolve h d.
Proof.
  intros Hsame. unfold resolve. apply Forall_fmap_ext_1, Forall_forall.
  intros [k a] Hin. simpl. by rewrite (Hsame k a Hin).
Qed.

Lemma resolve_alter (h : list (list string)) (items : list string) (category : string)
    (a : nat) (d : pydict nat) :
  dict_lookup category d = Some a →
  Forall (λ kv : string * nat, kv.2 < length h) d →
  NoDup d.*2 →
  resolve (alter (λ old, old ++ items) a h) d
  = dict_extend (resolve h d) category items.
Proof.
  induction d as [|[k0 a0] d IH]; intros Hl Hlt Hnd; [done|].
  apply Forall_cons in Hlt as [Hlt0 Hlt]. simpl in Hlt0.
  rewrite fmap_cons in Hnd. apply NoDup_cons in Hnd as [Hfresh Hnd].
  unfold resolve in *. rewrite !fmap_cons. simpl in *.
  destruct (decide (category = k0)) as [->|Hne].
  - injection Hl as ->. rewrite decide_True by done. f_equal.
    + f_equal. rewrite list_lookup_alter_eq.
      destruct (lookup_lt_is_Some_2 h a Hlt0) as [old ->]. done.
    + apply (resolve_ext h). intros k a' Hin.
      apply list_lookup_alter_ne. intros ->. apply Hfresh.
      apply list_elem_of_fmap. by exists (k, a').
  - rewrite decide_False by done. f_equal.
    + f_equal. rewrite list_lookup_alter_ne; [done|]. intros <-.
      apply Hfresh. apply list_elem_of_fmap. exists (category, a).
      split; [done|]. by apply dict_lookup_elem.
    + by apply IH.
Qed.

Lemma extend_category_accumulated (st : store) (category : string)
    (items : list string) :
  store_wf st →
  store_wf (extend_category st (category, items))
  ∧ accumulated (extend_category st (category, items))
    = dict_extend (accumulated st) category items.
Proof.
  intros (Hlt & Hnda & Hndk). unfold accumulated, store_wf, extend_category.
  destruct (dict_lookup category (purposes_accumulated st)) as [a|] eqn:Hl; simpl.
  - split; [|by apply resolve_alter].
    split; [|done]. eapply Forall_impl; [exact Hlt|].
    intros kv. by rewrite length_alter.
  - split.
    + split; [|split].
      * apply Forall_app. split.
        -- eapply Forall_impl; [exact Hlt|]. intros kv. rewrite length_app. simpl. lia.
        -- constructor; [|constructor]. rewrite length_app. simpl. lia.
      * rewrite fmap_app. apply NoDup_app. split; [done|]. split; [|apply NoDup_singleton].
        intros a Ha ->%list_elem_of_singleton.
        apply list_elem_of_fmap in Ha as ([k a'] & Heq & Hin). simpl in Heq. subst a'.
        eapply Forall_forall in Hlt; [|exact Hin]. simpl in Hlt. lia.
      * rewrite fmap_app. apply NoDup_app. split; [done|]. split; [|apply NoDup_singleton].
        intros k Hk ->%list_elem_of_singleton. by apply dict_lookup_None in Hl.
    + unfold resolve. rewrite fmap_app. simpl.
      rewrite lookup_app_r, Nat.sub_diag by done. simpl.
      fold (resolve (heap st ++ [items]) (purposes_accumulated st)).
      rewrite (resolve_ext (heap st)).
      * symmetry. apply dict_extend_fresh. rewrite resolve_keys.
        by apply dict_lookup_None.
      * intros k a Hin. eapply Forall_forall in Hlt; [|exact Hin].
        by apply lookup_app_l.
Qed.

Lemma accumulate_accumulated (prp : purposes_dict) (st : store) :
  store_wf st →
  store_wf (accumulate prp st)
  ∧ accumulated (accumulate prp st)
    = foldl (λ d e, dict_extend d e.1 e.2) (accumulated st) prp.
Proof.
  unfold accumulate. revert st.
  induction prp as [|[category items] prp IH]; intros st Hwf; cbn [foldl]; [done|].
  destruct (extend_category_accumulated st category items Hwf) as [Hwf' Heq].
  destruct (IH _ Hwf') as [Hwf'' Heq']. split; [done|]. by rewrite Heq', Heq.
Qed.

Lemma dfs_unbranched (adj_list : adjacency) (end_ : string) :
  (∀ node, length (adj_get adj_list node) ≤ 1) →
  ∀ fuel start path st st',
    store_wf st →
    dfs fuel adj_list start end_ path st = Some st' →
    store_wf st'
    ∧ (all_paths st' = all_paths st
       ∨ ∃ further prps,
           all_paths st' = all_paths st
                           ++ [(path ++ start :: further, purposes_accumulated st')]
           ∧ only_edges adj_list start further prps
           ∧ accumulated st'
             = foldl (foldl (λ d e, dict_extend d e.1 e.2)) (accumulated st) prps).
Proof.
  intros Hone. induction fuel as [|fuel IH]; intros start path st st' Hwf Hrun; [done|].
  simpl in Hrun. destruct (decide (start = end_)) as [->|Hne].
  - injection Hrun as <-. split; [done|]. right. by exists [], [].
  - specialize (Hone start).
    destruct (adj_get adj_list start) as [|[next_node prp] [|e edges]] eqn:Hedges;
      simpl in Hone; [| |lia].
    + injection Hrun as <-. split; [done|]. by left.
    + simpl in Hrun.
      destruct (decide (next_node ∈ path ++ [start]));
        [injection Hrun as <-; split; [done|]; by left|].
      destruct (dfs fuel adj_list next_node end_ (path ++ [start]) (accumulate prp st))
        as [st1|] eqn:Hcall; [|done].
      injection Hrun as <-.
      destruct (accumulate_accumulated prp st Hwf) as [Hwf0 Hacc0].
      destruct (IH _ _ _ _ Hwf0 Hcall) as [Hwf1 Hres]. split; [done|].
      rewrite accumulate_all_paths in Hres.
      destruct Hres as [?|(further & prps & Hall & Honly & Hacc)]; [by left|].
      right. exists (next_node :: further), (prp :: prps).
      split; [by rewrite Hall, <- app_assoc|]. split; [done|].
      by rewrite Hacc, Hacc0.
Qed.

(** X15: on an adjacency list in which no node has more than one outgoing
    edge the enumerator returns at most one result, and its accumulated
    purposes are exactly those of the edges of its path: each category in
    the order first met, with the concatenation of its entries. *)
Theorem unbranched_purposes (adj_list : adjacency) (start end_ : string)
    (found : list (list string * purposes_dict)) :
  (∀ node, length (adj_get adj_list node) ≤ 1) →
  get_all_paths_with_purposes adj_list start end_ = PyList found →
  found = []
  ∨ ∃ further prps,
      found = [(start :: further, path_purposes prps)]
      ∧ only_edges adj_list start further prps.
Proof.
  intros Hone (Hne & st & Hrun & ->)%get_all_paths_PyList.
  apply (dfs_unbranched adj_list end_ Hone) in Hrun as [_ Hres].
  2:{ repeat split; constructor. }
  unfold results. destruct Hres as [->|(further & prps & -> & Honly & Hacc)];
    [by left|].
  right. exists further, prps. split; [|done]. simpl. do 2 f_equal.
  exact Hacc.
Qed.

Lemma unbranched_purposes_witness :
  let adj_list : adjacency :=
    <[ "A" := [("B", [("p", ["x"]); ("q", ["y"])])] ]>
      {[ "B" := [("C", [("p", ["z"])])] ]} in
  let found := [(["A"; "B"; "C"], [("p", ["x"; "z"]); ("q", ["y"])])] in
  (∀ node, length (adj_get adj_list node) ≤ 1)
  ∧ get_all_paths_with_purposes adj_list "A" "C" = PyList found
  ∧ (found = []
     ∨ ∃ further prps,
         found = [("A" :: further, path_purposes prps)]
         ∧ only_edges adj_list "A" further prps).
Proof.
  intros adj_list found.
  assert (∀ node, length (adj_get adj_list node) ≤ 1) as Hone.
  { intros node. unfold adj_get, adj_list.
    destruct (decide (node = "A")) as [->|Ha]; [by vm_compute|].
    rewrite lookup_insert_ne by done.
    destruct (decide (node = "B")) as [->|Hb]; [by vm_compute|].
    rewrite lookup_singleton_ne by done. simpl. lia. }
  assert (get_all_paths_with_purposes adj_list "A" "C" = PyList found) as Hret
    by (by vm_compute).
  do 2 (split; [done|]).
  exact (unbranched_purposes adj_list "A" "C" found Hone Hret).
Defined.

(** ** No output file is written twice *)

Lemma string_length_append (s t : string) :
  String.length (String.append s t) = String.length s + String.length t.
Proof. induction s as [|c s IH]; simpl; [done|]. by rewrite IH. Qed.

Lemma csv_name_inj (a b : string) : csv_name a = csv_name b → a = b.
Proof.
  unfold csv_name. revert b. induction a as [|c a IH]; intros [|d b]; simpl.
  - done.
  - intros Heq. apply (f_equal String.length) in Heq. simpl in Heq.
    rewrite string_length_append in Heq. simpl in Heq. lia.
  - intros Heq. apply (f_equal String.length) in Heq. simpl in Heq.
    rewrite string_length_append in Heq. simpl in Heq. lia.
  - intros [= -> Heq]. f_equal. by apply IH.
Qed.

Section Written.
Context `{SetIter}.
Variable fs : file_system.

Lemma written_app (events events' : list event) :
  written (events ++ events') = written events ++ written events'.
Proof. unfold written. apply omap_app. Qed.

Lemma written_process_file (app_folder : string) (file : string * file_content) :
  written (process_file fs app_folder file) = []
  ∨ (file.1 = "graph-original.yml"
     ∧ written (process_file fs app_folder file) = [csv_name app_folder]).
Proof.
  destruct file as [filename content]. unfold process_file.
  destruct (decide (filename = "graph-original.yml")) as [->|]; [|by left].
  destruct content as [|data]; [by left|].
  destruct (process_yaml_to_organized_data data) as [|r df]; [by left|].
  destruct (to_csv fs (csv_name app_folder) (r :: df)) as [[]|]; [|by left].
  right. done.
Qed.

Lemma written_files (app_folder : string) (files : list (string * file_content)) :
  NoDup files.*1 →
  (written (files ≫= process_file fs app_folder) = []
   ∨ written (files ≫= process_file fs app_folder) = [csv_name app_folder])
  ∧ ("graph-original.yml" ∉ files.*1 →
     written (files ≫= process_file fs app_folder) = []).
Proof.
  induction files as [|file files IH]; intros Hnd; [split; [by left|done]|].
  rewrite fmap_cons in Hnd. apply NoDup_cons in Hnd as [Hfresh Hnd].
  destruct (IH Hnd) as [Hrest Hnone]. rewrite bind_cons, written_app, fmap_cons.
  destruct (written_process_file app_folder file) as [->|[Hname ->]].
  - split; [done|]. rewrite not_elem_of_cons. intros [_ ?]. by apply Hnone.
  - rewrite Hname in Hfresh. rewrite (Hnone Hfresh). split; [by right|].
    rewrite not_elem_of_cons. by intros [? _].
Qed.

Lemma written_entries (entries : list (string * dir_entry)) :
  (∀ app_folder files,
     (app_folder, AppFolder (Answer files)) ∈ entries → NoDup files.*1) →
  written (process_entries fs entries).1 `sublist_of` (csv_name <$> entries.*1).
Proof.
  induction entries as [|[app_folder kind] entries IH]; intros Hfiles; [done|].
  assert (written (process_entries fs entries).1
            `sublist_of` (csv_name <$> entries.*1)) as Hrest.
  { apply IH. intros app files Hin. apply (Hfiles app). by right. }
  simpl. destruct kind as [|[files|]]; simpl.
  - destruct (process_entries fs entries) as [events outcome]. simpl in *.
    by apply sublist_cons.
  - destruct (process_entries fs entries) as [events outcome]. simpl in *.
    change (written (PrintedFolder app_folder :: PrintedFiles files.*1
                     :: (files ≫= process_file fs app_folder) ++ events))
      with (written ((files ≫= process_file fs app_folder) ++ events)).
    rewrite written_app.
    destruct (written_files app_folder files) as [[-> | ->] _].
    { apply (Hfiles app_folder). by left. }
    + by apply sublist_cons.
    + by apply sublist_skip.
  - apply sublist_nil_l.
Qed.

(** X16: when the names of the input listing are distinct and the file
    names within each folder are distinct, as a file system has them, the
    driver writes no output file twice: the names of the files written are
    distinct. *)
Theorem no_file_written_twice (entries : list (string * dir_entry)) :
  input_listing fs = Answer entries →
  NoDup entries.*1 →
  (∀ app_folder files,
     (app_folder, AppFolder (Answer files)) ∈ entries → NoDup files.*1) →
  NoDup (written (process_all_yaml_files fs).1).
Proof.
  intros Hlist Hnames Hfiles.
  assert (NoDup (written (process_entries fs entries).1)) as Hnd.
  { eapply sublist_NoDup; [|by apply written_entries].
    apply NoDup_fmap_2_strong; [|done]. intros a b _ _. apply csv_name_inj. }
  unfold process_all_yaml_files. rewrite Hlist.
  destruct (output_exists fs); [|destruct (makedirs fs) as [[]|]];
    try (destruct (process_entries fs entries) as [events outcome]); simpl in *;
    by try constructor.
Qed.
End Written.

Lemma no_file_written_twice_witness :
  let data :=
    Dict (Some (LinksList
      [ Mapping {| source := Some "A"; target := Some "B";
                   purposes := Some [("p1", ["x"])]; text := Some ["hello"] |} ])) in
  let entries :=
    [("meet", AppFolder (Answer [("graph-original.yml", Content data)]));
     ("zoom", AppFolder (Answer [("graph-original.yml", Content data)]))] in
  let fs :=
    {| output_exists := true;
       makedirs := OSError;
       input_listing := Answer entries;
       to_csv := λ _ _, Answer () |} in
  NoDup entries.*1
  ∧ written (process_all_yaml_files fs).1 = ["meet.csv"; "zoom.csv"]
  ∧ NoDup (written (process_all_yaml_files fs).1).
Proof.
  intros data entries fs.
  assert (NoDup entries.*1) as Hnames by (apply (bool_decide_unpack _); by vm_compute).
  split; [exact Hnames|]. split; [by vm_compute|].
  apply (no_file_written_twice fs entries eq_refl Hnames).
  intros app_folder files Hin.
  apply elem_of_cons in Hin as [[= -> ->]|Hin]; [apply NoDup_singleton|].
  apply list_elem_of_singleton in Hin as [= -> ->]. apply NoDup_singleton.
Defined.

(** ** The table assembler on every document *)

Lemma for_each_Raise {A S : Type} (body : A → S → result S) (xs : list A) (s : S)
    (e : exn) :
  for_each body xs s = Raise e → ∃ x s', x ∈ xs ∧ body x s' = Raise e.
Proof.
  revert s. induction xs as [|x xs IH]; intros s Hrun; [done|].
  rewrite for_each_cons in Hrun. destruct (body x s) as [s1|e1] eqn:Hx.
  - destruct (IH s1 Hrun) as (y & s' & Hy & Hraise). exists y, s'. split; [by right|done].
  - injection Hrun as <-. exists x, s. split; [by left|done].
Qed.

Lemma for_each_ext_in {A S : Type} (body body' : A → S → result S) (xs : list A) :
  (∀ x s, x ∈ xs → body x s = body' x s) →
  ∀ s, for_each body xs s = for_each body' xs s.
Proof.
  induction xs as [|x xs IH]; intros Hext s; [done|].
  rewrite !for_each_cons, <- (Hext x s) by by left.
  destruct (body x s) as [s1|e]; [|done].
  apply IH. intros y t Hy. apply Hext. by right.
Qed.

(** A record whose source is not the root is passed over: its target is not
    read. *)
Lemma scan_link_passes_over (root leaf : string) (inherited_purposes : purposes_dict)
    (m : edge_record) (rows : list row) (src : string) :
  source m = Some src → src ≠ root →
  scan_link root leaf inherited_purposes (Mapping m) rows = Ok rows.
Proof.
  intros Hs Hne. unfold scan_link. simpl. rewrite Hs. simpl.
  by rewrite decide_False.
Qed.

Lemma scan_link_Raise (root leaf : string) (inherited_purposes : purposes_dict)
    (m : edge_record) (rows : list row) (e : exn) :
  scan_link root leaf inherited_purposes (Mapping m) rows = Raise e →
  e = KeyError
  ∧ (source m = None ∨ (source m = Some root ∧ target m = None)).
Proof.
  destruct m as [[src|] [tgt|] prp txt]; unfold scan_link; simpl.
  - destruct (decide (src = root)); [|done]. simpl. by destruct (decide (tgt = leaf)).
  - destruct (decide (src = root)) as [->|]; [|done]. simpl.
    intros [= <-]. split; [done|]. by right.
  - intros [= <-]. split; [done|]. by left.
  - intros [= <-]. split; [done|]. by left.
Qed.

Lemma field_set_Raise (field : edge_record → option string) (links : list link)
    (e : exn) :
  field_set field links = Raise e → e = AttributeError.
Proof.
  induction links as [|[|m] links IH]; simpl; [done|by intros [= <-]|].
  destruct (field_set field links); [done|]. simpl. intros [= <-]. by apply IH.
Qed.

Lemma build_adjacency_list_Raise (links : list link) (e : exn) :
  build_adjacency_list links = Raise e → e = AttributeError ∧ NotMapping ∈ links.
Proof.
  intros Hrun. destruct (mappings_or_not links) as [Hin|[ms ->]].
  - split; [|done]. unfold build_adjacency_list in Hrun.
    rewrite for_each_add_link_raises in Hrun by done. by injection Hrun as <-.
  - destruct (build_adjacency_list_mappings ms) as (adj_list & Hok & _). congruence.
Qed.

Section EveryDocument.
Context `{SetIter}.

Lemma scan_fails_raises (links : list link) :
  scan_fails links → is_raise (collect_rows links).
Proof.
  intros [Hnm|(root & leaf & m & Hpath & Hin & Hm)]; unfold collect_rows.
  - pose proof (build_adjacency_list_raises links Hnm) as Hr.
    by destruct (build_adjacency_list links).
  - destruct Hpath as (adj_list & roots & leaves & found & rest
                       & Hadj & Hroots & Hleaves & Hroot & Hleaf & Hpaths).
    rewrite Hadj, Hleaves, Hroots. simpl.
    apply (for_each_raises _ _ root); [by apply elem_of_set_iter|]. intros rows.
    apply (for_each_raises _ _ leaf); [by apply elem_of_set_iter|]. clear rows.
    intros rows. unfold scan_pair. rewrite Hpaths.
    apply (for_each_raises _ _ found); [by left|]. clear rows. intros rows.
    unfold scan_path. apply (for_each_raises _ _ (Mapping m)); [done|].
    clear rows. intros rows. unfold scan_link. simpl.
    destruct Hm as [-> | [-> ->]]; simpl; [done|]. by rewrite decide_True.
Qed.

(** The pairs the loops hand to the enumerator have distinct endpoints, so
    the body of the inner loop is the scan of the list returned. *)
Lemma scan_pair_in_loops (links : list link) (roots leaves : gset string)
    (adj_list : adjacency) (root leaf : string) (rows : list row) :
  find_root_nodes links = Ok roots →
  find_leaf_nodes links = Ok leaves →
  root ∈ set_iter roots → leaf ∈ set_iter leaves →
  root ≠ leaf
  ∧ scan_pair links adj_list root leaf rows
    = for_each (scan_path links root leaf) (paths_of adj_list root leaf) rows.
Proof.
  intros Hroots Hleaves Hroot%elem_of_set_iter Hleaf%elem_of_set_iter.
  assert (root ≠ leaf) as Hne by by eapply roots_leaves_distinct.
  split; [done|]. unfold scan_pair, paths_of.
  by destruct (get_all_paths_list adj_list root leaf Hne) as [paths ->].
Qed.

(** The exceptions of the two loops, and where they come from. *)
Lemma collect_rows_Raise (links : list link) (e : exn) :
  collect_rows links = Raise e →
  (e = AttributeError ∧ NotMapping ∈ links)
  ∨ (e = KeyError
     ∧ ∃ root leaf m,
         yields_path links root leaf ∧ Mapping m ∈ links
         ∧ (source m = None ∨ (source m = Some root ∧ target m = None))).
Proof.
  unfold collect_rows.
  destruct (build_adjacency_list links) as [adj_list|e0] eqn:Hadj.
  2:{ intros [= <-]. left. by apply build_adjacency_list_Raise. }
  destruct (mappings_or_not links) as [Hin|[ms Hms]].
  { unfold build_adjacency_list in Hadj.
    by rewrite for_each_add_link_raises in Hadj. }
  destruct (find_leaf_nodes links) as [leaves|e0] eqn:Hleaves.
  2:{ subst links. by rewrite find_leaf_nodes_mappings in Hleaves. }
  destruct (find_root_nodes links) as [roots|e0] eqn:Hroots.
  2:{ subst links. by rewrite find_root_nodes_mappings in Hroots. }
  simpl. intros Hrun. right.
  apply for_each_Raise in Hrun as (root & rows1 & Hroot & Hrun).
  apply for_each_Raise in Hrun as (leaf & rows2 & Hleaf & Hrun).
  destruct (scan_pair_in_loops links roots leaves adj_list root leaf rows2
              Hroots Hleaves Hroot Hleaf) as [Hne Hpair].
  rewrite Hpair in Hrun.
  apply for_each_Raise in Hrun as (found & rows3 & Hfound & Hrun).
  unfold scan_path in Hrun.
  apply for_each_Raise in Hrun as (l & rows4 & Hl & Hrun).
  assert (∃ m, l = Mapping m) as [m ->].
  { rewrite Hms in Hl. apply list_elem_of_fmap in Hl as (m & -> & _). by exists m. }
  apply scan_link_Raise in Hrun as [-> Hm]. split; [done|].
  exists root, leaf, m. split; [|done].
  unfold paths_of in Hfound.
  destruct (get_all_paths_with_purposes adj_list root leaf) as [|[|found0 rest]] eqn:Hret;
    [by apply not_elem_of_nil in Hfound..|].
  exists adj_list, roots, leaves, found0, rest. do 3 (split; [done|]).
  split; [by apply elem_of_set_iter|]. split; [by apply elem_of_set_iter|done].
Qed.

Lemma collect_rows_raise_iff (links : list link) :
  is_raise (collect_rows links) ↔ scan_fails links.
Proof.
  split; [|apply scan_fails_raises].
  destruct (collect_rows links) as [rows|e] eqn:Hrun; [done|]. intros _.
  apply collect_rows_Raise in Hrun as [[_ ?]|[_ ?]]; [by left|by right].
Qed.

Lemma collected_rows_value (links : list link) (rows : list row) :
  collect_rows links = Ok rows →
  ∃ adj_list roots leaves,
    build_adjacency_list links = Ok adj_list
    ∧ find_root_nodes links = Ok roots
    ∧ find_leaf_nodes links = Ok leaves
    ∧ rows = (root ← set_iter roots; leaf ← set_iter leaves;
              found ← paths_of adj_list root leaf;
              make_row root leaf found.2 <$> direct_edges links root leaf).
Proof.
  intros Hrows.
  destruct (collect_rows_Ok links rows Hrows)
    as (adj_list & roots & leaves & Hadj & Hroots & Hleaves & Hrun).
  exists adj_list, roots, leaves. do 3 (split; [done|]).
  by apply loops_value in Hrun.
Qed.

(** C4, as amended: on every edge list the two loops either raise, which
    they do exactly when the scan fails (an element that is not a mapping,
    or, for a pair that yields a path, a record without source or a record
    with the root as source and without target), and then the table is
    empty whatever direct edges there are; or they complete, and then the
    rows collected are, for each root, each leaf and each path returned for
    them, one row per direct edge from that root to that leaf, carrying the
    text of the direct edge joined with newlines and, joined with a comma
    and a space, the keys of the purposes the enumerator returned with the
    path. A pair without a direct edge contributes no row, whatever paths
    were found, and a row is in the final table exactly when it is such a
    row. *)
Theorem rows_from_direct_edges (links : list link) :
  (scan_fails links
   ∧ is_raise (collect_rows links)
   ∧ process_yaml_to_organized_data (Dict (Some (LinksList links))) = [])
  ∨ (¬ scan_fails links
     ∧ ∃ rows adj_list roots leaves,
         collect_rows links = Ok rows
         ∧ build_adjacency_list links = Ok adj_list
         ∧ find_root_nodes links = Ok roots
         ∧ find_leaf_nodes links = Ok leaves
         ∧ rows = (root ← set_iter roots; leaf ← set_iter leaves;
                   found ← paths_of adj_list root leaf;
                   make_row root leaf found.2 <$> direct_edges links root leaf)
         ∧ (∀ root leaf r,
              direct_edges links root leaf = [] →
              r ∈ process_yaml_to_organized_data (Dict (Some (LinksList links))) →
              ¬ (collector r = root ∧ data_type r = leaf))
         ∧ (∀ r,
              r ∈ process_yaml_to_organized_data (Dict (Some (LinksList links))) ↔
              ∃ root leaf found m,
                root ∈ roots ∧ leaf ∈ leaves
                ∧ found ∈ paths_of adj_list root leaf
                ∧ Mapping m ∈ links
                ∧ source m = Some root ∧ target m = Some leaf
                ∧ r = {| data_type := leaf;
                         collector := root;
                         purpose := extract_purposes found.2;
                         text_content :=
                           String.concat newline (default [] (text m)) |})).
Proof.
  destruct (collect_rows links) as [rows|e] eqn:Hrows.
  - right. split.
    { intros Hfail%collect_rows_raise_iff. by rewrite Hrows in Hfail. }
    rewrite (process_collected links rows Hrows).
    destruct (collected_rows_value links rows Hrows)
      as (adj_list & roots & leaves & Hadj & Hroots & Hleaves & Heq).
    exists rows, adj_list, roots, leaves. do 5 (split; [done|]).
    assert (∀ r, r ∈ finish rows ↔
              ∃ root leaf found m,
                root ∈ roots ∧ leaf ∈ leaves
                ∧ found ∈ paths_of adj_list root leaf
                ∧ Mapping m ∈ links
                ∧ source m = Some root ∧ target m = Some leaf
                ∧ r = make_row root leaf found.2 m) as Hmem.
    { intros r. rewrite elem_of_finish, Heq. split.
      - intros (root & Hr & Hroot)%list_elem_of_bind.
        apply list_elem_of_bind in Hr as (leaf & Hr & Hleaf).
        apply list_elem_of_bind in Hr as (found & Hr & Hfound).
        apply list_elem_of_fmap in Hr as (m & -> & Hm).
        apply elem_of_direct_edges in Hm as (Hm & Hs & Ht).
        apply elem_of_set_iter in Hroot, Hleaf.
        by exists root, leaf, found, m.
      - intros (root & leaf & found & m & Hroot & Hleaf & Hfound & Hm & Hs & Ht & ->).
        apply list_elem_of_bind. exists root. split; [|by apply elem_of_set_iter].
        apply list_elem_of_bind. exists leaf. split; [|by apply elem_of_set_iter].
        apply list_elem_of_bind. exists found. split; [|done].
        apply list_elem_of_fmap. exists m. split; [done|].
        by apply elem_of_direct_edges. }
    split; [|exact Hmem].
    intros root leaf r Hnone Hr [Hc Hd].
    apply Hmem in Hr as (root' & leaf' & found & m & _ & _ & _ & Hm & Hs & Ht & ->).
    simpl in Hc, Hd. subst root' leaf'.
    assert (m ∈ direct_edges links root leaf) as Hin by by apply elem_of_direct_edges.
    rewrite Hnone in Hin. by apply not_elem_of_nil in Hin.
  - left. assert (is_raise (collect_rows links)) as Hr by by rewrite Hrows.
    rewrite <- Hrows. split; [by apply collect_rows_raise_iff|].
    split; [done|]. by apply collect_rows_raises.
Qed.

(** C10, as amended: the table is empty when some element of [links] is
    not a mapping; when some pair yields a path and some element lacks the
    [source] key; and when some pair yields a path and some element has the
    root of that pair as its source and lacks the [target] key. These are
    the only edge lists on which the loops raise, and the exception is then
    [AttributeError] for an element that is no mapping and [KeyError] for
    a missing key. A record whose source is not the root of the pair
    scanned is passed over without its target being read, so a record
    lacking only [target] does no harm unless its source is such a root. *)
Theorem malformed_link_empties_table (links : list link) :
  (NotMapping ∈ links
   ∨ (∃ root leaf m,
        yields_path links root leaf ∧ Mapping m ∈ links
        ∧ (source m = None ∨ (source m = Some root ∧ target m = None))) →
   process_yaml_to_organized_data (Dict (Some (LinksList links))) = [])
  ∧ (is_raise (collect_rows links)
     ↔ NotMapping ∈ links
       ∨ (∃ root leaf m,
            yields_path links root leaf ∧ Mapping m ∈ links
            ∧ (source m = None ∨ (source m = Some root ∧ target m = None))))
  ∧ (∀ e, collect_rows links = Raise e →
       (e = AttributeError ∧ NotMapping ∈ links)
       ∨ (e = KeyError
          ∧ ∃ root leaf m,
              yields_path links root leaf ∧ Mapping m ∈ links
              ∧ (source m = None ∨ (source m = Some root ∧ target m = None))))
  ∧ (∀ root leaf inherited_purposes m rows src,
       source m = Some src → src ≠ root →
       scan_link root leaf inherited_purposes (Mapping m) rows = Ok rows)
  ∧ (∀ m,
       Mapping m ∈ links → target m = None →
       (∀ l, l ∈ links → l = Mapping m ∨ ∃ m', l = Mapping m'
                                              ∧ is_Some (source m')
                                              ∧ is_Some (target m')) →
       (∀ src leaf, source m = Some src → ¬ yields_path links src leaf) →
       is_Some (source m) →
       ∃ rows, collect_rows links = Ok rows).
Proof.
  split; [|split; [|split; [|split]]].
  - intros Hbad. by apply collect_rows_raises, scan_fails_raises.
  - apply collect_rows_raise_iff.
  - intros e. apply collect_rows_Raise.
  - intros root leaf inherited_purposes m rows src.
    apply scan_link_passes_over.
  - intros m Hm Ht Hothers Hnopath [src Hsrc].
    destruct (collect_rows links) as [rows|e] eqn:Hrun; [by exists rows|].
    exfalso. apply collect_rows_Raise in Hrun as [[_ Hnm]|[_ Hbad]].
    + destruct (Hothers _ Hnm) as [?|(m' & ? & _)]; done.
    + destruct Hbad as (root & leaf & m0 & Hpath & Hm0 & Hdefect).
      destruct (Hothers _ Hm0) as [[= ->]|(m' & [= ->] & [s Hs] & [t Hts])].
      * destruct Hdefect as [Hn|[Hroot _]]; [congruence|].
        rewrite Hsrc in Hroot. injection Hroot as ->. by eapply Hnopath.
      * destruct Hdefect as [Hn|[_ Hn]]; congruence.
Qed.
End EveryDocument.

(** C4 fails as stated, twice. In the first edge list the pair of "A" and
    "B" has a direct edge and yields a path, yet the second record has no
    [source], the scan raises and the table is empty. In the second edge
    list the row of the path from "R" straight to "L" carries the categories
    "p2" and "p3" of the branch through "M" besides the "p1" of its own
    edge. *)
Lemma direct_edge_without_row_counterexample :
  let links :=
    [ Mapping {| source := Some "A"; target := Some "B";
                 purposes := Some [("p1", ["x"])]; text := Some ["hello"] |};
      Mapping {| source := None; target := Some "C";
                 purposes := None; text := None |} ] in
  let edge s t p x :=
    Mapping {| source := Some s; target := Some t;
               purposes := Some [(p, ["v"])]; text := Some [x] |} in
  let links' := [edge "R" "M" "p2" "one"; edge "M" "L" "p3" "two";
                 edge "R" "L" "p1" "hello"] in
  let adj_list' : adjacency :=
    <[ "M" := [("L", [("p3", ["v"])])] ]>
      {[ "R" := [("M", [("p2", ["v"])]); ("L", [("p1", ["v"])])] ]} in
  (yields_path links "A" "B"
   ∧ (∃ m, Mapping m ∈ links ∧ source m = Some "A" ∧ target m = Some "B")
   ∧ ∀ I : SetIter,
       @process_yaml_to_organized_data I (Dict (Some (LinksList links))) = [])
  ∧ (build_adjacency_list links' = Ok adj_list'
     ∧ get_all_paths_with_purposes adj_list' "R" "L"
       = PyList [(["R"; "M"; "L"], [("p2", ["v"]); ("p3", ["v"])]);
                 (["R"; "L"], [("p2", ["v"]); ("p3", ["v"]); ("p1", ["v"])])]
     ∧ extract_purposes (path_purposes [[("p1", ["v"])]]) = "p1"
     ∧ ∀ I : SetIter,
         @process_yaml_to_organized_data I (Dict (Some (LinksList links')))
         = [ {| data_type := "L"; collector := "R";
                purpose := "p2, p3"; text_content := "hello" |};
             {| data_type := "L"; collector := "R";
                purpose := "p2, p3, p1"; text_content := "hello" |} ]).
Proof.
  intros links edge links' adj_list'. split.
  - assert (yields_path links "A" "B") as Hpath.
    { exists {[ "A" := [("B", [("p1", ["x"])])] ]}, {[ "A"; "" ]}, {[ "B"; "C" ]},
        (["A"; "B"], [("p1", ["x"])]), [].
      repeat split; by vm_compute. }
    split; [done|]. split.
    + eexists. split; [by left|done].
    + intros I. apply collect_rows_raises, scan_fails_raises. right.
      exists "A", "B", {| source := None; target := Some "C";
                           purposes := None; text := None |}.
      split; [done|]. split; [right; by left|by left].
  - assert (build_adjacency_list links' = Ok adj_list') as Hadj by (by vm_compute).
    split; [done|]. split; [by vm_compute|]. split; [by vm_compute|].
    intros I.
    assert (find_root_nodes links' = Ok {[ "R" ]}) as Hroots by (by vm_compute).
    assert (find_leaf_nodes links' = Ok {[ "L" ]}) as Hleaves by (by vm_compute).
    unfold process_yaml_to_organized_data, process_body, collect_rows.
    rewrite Hadj, Hleaves, Hroots.
    pose proof (set_iter_perm {[ "R" ]}) as Hr.
    pose proof (set_iter_perm {[ "L" ]}) as Hl.
    rewrite elements_singleton in Hr, Hl.
    apply Permutation_singleton_r in Hr, Hl.
    unfold mbind, result_bind. rewrite Hr, Hl. by vm_compute.
Qed.

Lemma rows_from_direct_edges_witness :
  let links :=
    [ Mapping {| source := Some "R"; target := Some "M";
                 purposes := Some [("p2", ["v"])]; text := Some ["one"] |};
      Mapping {| source := Some "M"; target := Some "L";
                 purposes := Some [("p3", ["v"])]; text := Some ["two"] |};
      Mapping {| source := Some "R"; target := Some "L";
                 purposes := Some [("p1", ["v"])];
                 text := Some ["hello"; "world"] |} ] in
  let rows := [ {| data_type := "L"; collector := "R";
                   purpose := "p2, p3"; text_content := "hello
world" |};
                {| data_type := "L"; collector := "R";
                   purpose := "p2, p3, p1"; text_content := "hello
world" |} ] in
  collect_rows links = Ok rows
  ∧ ∃ adj_list roots leaves,
      build_adjacency_list links = Ok adj_list
      ∧ find_root_nodes links = Ok roots
      ∧ find_leaf_nodes links = Ok leaves
      ∧ rows = (root ← set_iter roots; leaf ← set_iter leaves;
                found ← paths_of adj_list root leaf;
                make_row root leaf found.2 <$> direct_edges links root leaf).
Proof.
  intros links rows.
  assert (collect_rows links = Ok rows) as Hrun by (by vm_compute).
  split; [exact Hrun|].
  destruct (rows_from_direct_edges links)
    as [(_ & Hraise & _)
       |(_ & rows' & adj_list & roots & leaves
         & Hrun' & Hadj & Hroots & Hleaves & Hrows & _)].
  - rewrite Hrun in Hraise. destruct Hraise.
  - rewrite Hrun in Hrun'. injection Hrun' as <-.
    by exists adj_list, roots, leaves.
Defined.

Lemma malformed_link_empties_table_witness :
  let links :=
    [ Mapping {| source := Some "A"; target := Some "B";
                 purposes := Some [("p1", ["x"])]; text := Some ["hello"] |};
      Mapping {| source := None; target := Some "C";
                 purposes := None; text := None |} ] in
  (NotMapping ∈ links
   ∨ (∃ root leaf m,
        yields_path links root leaf ∧ Mapping m ∈ links
        ∧ (source m = None ∨ (source m = Some root ∧ target m = None))))
  ∧ process_yaml_to_organized_data (Dict (Some (LinksList links))) = [].
Proof.
  intros links.
  assert (NotMapping ∈ links
          ∨ (∃ root leaf m,
               yields_path links root leaf ∧ Mapping m ∈ links
               ∧ (source m = None ∨ (source m = Some root ∧ target m = None))))
    as Hbad.
  { right. exists "A", "B", {| source := None; target := Some "C";
                               purposes := None; text := None |}.
    split; [|split].
    - exists {[ "A" := [("B", [("p1", ["x"])])] ]}, {[ "A"; "" ]}, {[ "B"; "C" ]},
        (["A"; "B"], [("p1", ["x"])]), [].
      repeat split; by vm_compute.
    - right. by left.
    - by left. }
  split; [exact Hbad|]. exact (proj1 (malformed_link_empties_table links) Hbad).
Defined.

(** C9: the roots and the leaves of an edge list are disjoint, so every pair
    handed to the path enumerator has distinct endpoints, and the enumerator
    answers it with a list, never with the [None] of the one-node case. In
    the table assembler: whatever the order the sets are run through, each
    pair the two loops reach has distinct endpoints and the body of the
    inner loop is the scan of the list returned; the loops are those with
    the [None] case left out; and the [TypeError] of iterating over [None]
    is never raised. *)
Theorem roots_leaves_disjoint (links : list link) (roots leaves : gset string) :
  find_root_nodes links = Ok roots →
  find_leaf_nodes links = Ok leaves →
  roots ## leaves
  ∧ (∀ root leaf, root ∈ roots → leaf ∈ leaves →
       root ≠ leaf
       ∧ ∀ adj_list,
           ∃ paths, get_all_paths_with_purposes adj_list root leaf = PyList paths)
  ∧ (∀ (I : SetIter) adj_list root leaf rows,
       root ∈ @set_iter I roots → leaf ∈ @set_iter I leaves →
       root ≠ leaf
       ∧ get_all_paths_with_purposes adj_list root leaf ≠ PyNone
       ∧ scan_pair links adj_list root leaf rows
         = for_each (scan_path links root leaf) (paths_of adj_list root leaf) rows)
  ∧ (∀ (I : SetIter) adj_list,
       build_adjacency_list links = Ok adj_list →
       @collect_rows I links
       = for_each
           (λ root,
              for_each
                (λ leaf,
                   for_each (scan_path links root leaf) (paths_of adj_list root leaf))
                (@set_iter I leaves))
           (@set_iter I roots) [])
  ∧ (∀ I : SetIter, @collect_rows I links ≠ Raise TypeError).
Proof.
  intros Hroots Hleaves. split; [|split; [|split; [|split]]].
  - intros x Hr Hl. by eapply (roots_leaves_distinct links roots leaves x x).
  - intros root leaf Hr Hl.
    assert (root ≠ leaf) as Hne by by eapply roots_leaves_distinct.
    split; [done|]. intros adj_list. by apply get_all_paths_list.
  - intros I adj_list root leaf rows Hroot Hleaf.
    destruct (scan_pair_in_loops links roots leaves adj_list root leaf rows
                Hroots Hleaves Hroot Hleaf) as [Hne Hpair].
    split; [done|]. split; [|done].
    by destruct (get_all_paths_list adj_list root leaf Hne) as [paths ->].
  - intros I adj_list Hadj. unfold collect_rows.
    rewrite Hadj, Hleaves, Hroots. simpl.
    apply for_each_ext_in. intros root s Hroot.
    apply for_each_ext_in. intros leaf t Hleaf.
    by destruct (scan_pair_in_loops links roots leaves adj_list root leaf t
                   Hroots Hleaves Hroot Hleaf) as [_ ?].
  - intros I Hrun. by apply collect_rows_Raise in Hrun as [[? _]|[? _]].
Qed.

Lemma roots_leaves_disjoint_witness :
  let links := [ Mapping {| source := Some "A"; target := Some "B";
                            purposes := None; text := None |} ] in
  find_root_nodes links = Ok {[ "A" ]}
  ∧ find_leaf_nodes links = Ok {[ "B" ]}
  ∧ ({[ "A" ]} : gset string) ## {[ "B" ]}
  ∧ collect_rows links ≠ Raise TypeError.
Proof.
  assert (find_root_nodes
            [ Mapping {| source := Some "A"; target := Some "B";
                         purposes := None; text := None |} ] = Ok {[ "A" ]})
    as Hroots by (by vm_compute).
  assert (find_leaf_nodes
            [ Mapping {| source := Some "A"; target := Some "B";
                         purposes := None; text := None |} ] = Ok {[ "B" ]})
    as Hleaves by (by vm_compute).
  split; [exact Hroots|]. split; [exact Hleaves|].
  destruct (roots_leaves_disjoint _ _ _ Hroots Hleaves) as (Hdisj & _ & _ & _ & Hno).
  split; [exact Hdisj|apply Hno].
Defined.
